(** * kvrocks2redis: the bootstrap program [tools/kvrocks2redis/main.cc]

    A shallow embedding of [main.cc] and the properties of the process
    bootstrap: command line, configuration, logging flags, daemonization,
    read-only engine open, construction of the pipeline and the
    signal-driven shutdown closure.

    Calls that leave the translation unit (glog, gflags, libevent, libc,
    the storage engine, the writer, the parser and the orchestrator) are
    recorded as events of a trace, in the order the program makes them.
    What such a call answers is read from an environment [env]; every
    theorem quantifies over all environments.  Signals are asynchronous: an
    execution is a schedule that interleaves statements of [main] with
    signal deliveries. *)

From Stdlib Require Import ZArith List String Ascii Bool Lia Arith.
From Stdlib Require Import DecimalString.
Import ListNotations.
Local Open Scope string_scope.
Local Open Scope list_scope.
Local Open Scope Z_scope.

(** ** Text helpers *)

Infix "+++" := String.append (right associativity, at level 60).

Definition nl : string := String (ascii_of_nat 10) EmptyString.
Definition tab : string := String (ascii_of_nat 9) EmptyString.

(** [std::to_string] on an integer. *)
Definition to_string (z : Z) : string := NilZero.string_of_int (Z.to_int z).

(** ** Collaborators' types (declared outside [main.cc]) *)

(** [Status]: a code and a message; only [IsOK] and [Msg] are used here. *)
Inductive StatusCode := cOK | NotOK.

Record Status := mkStatus { code : StatusCode; Msg : string }.

Definition Status_OK : Status := mkStatus cOK "".

Definition IsOK (s : Status) : bool :=
  match code s with cOK => true | NotOK => false end.

(** glog severities. *)
Inductive severity := INFO | WARNING | ERROR | FATAL.

(** The fields of [Kvrocks2redis::Config] that [main.cc] reads. *)
Record Kvrocks2redisConfig := mkK2RConfig {
  loglevel : Z;
  dir : string;
  daemonize_flag : bool;
  requirepass : string;
  db_name : string;
  db_dir : string;
  max_open_files : Z
}.

(** The fields of the engine's [Config] that [main.cc] assigns. *)
Record Config := mkConfig {
  k_requirepass : string;
  k_db_name : string;
  k_db_dir : string;
  k_max_open_files : Z
}.

(** The glog flags assigned by [initGoogleLog]. *)
Inductive gflag :=
| FLAGS_minloglevel (v : Z)
| FLAGS_max_log_size (v : Z)
| FLAGS_logbufsecs (v : Z)
| FLAGS_log_dir (v : string).

Inductive signal := SIGINT | SIGTERM | SIGPIPE.

(** What [signal(2)] can install: the default action, ignore, or the one
    handler this program has, [signal_handler]. *)
Inductive disposition := SIG_DFL | SIG_IGN | Handler.

(** The two ways [Engine::Storage] can be opened. *)
Inductive open_mode := ReadWrite | ReadOnly.

(** ** Events: the calls the program makes, in order *)

Inductive event :=
| EInitGoogleLogging (name : string)
| ESetUsageMessage (msg : string)
| EEvthreadUsePthreads
| ESignal (sig : signal) (h : disposition)
| ECout (text : string)
| ELog (sev : severity) (text : string)
| EConfigLoad (path : string) (res : Status)
| EFlag (f : gflag)
| EFork (res : Z)
| EUmask (mask : Z)
| ESetsid (res : Z)
| EClose (fd : Z)
| EOpen (path : string) (flags : Z) (res : Z)
| EWrite (fd : Z) (data : string)
| ERemove (path : string)
| ENewStorage (cfg : Config)
| EStorageOpen (mode : open_mode) (res : Status)
| ENewRedisWriter (cfg : Kvrocks2redisConfig)
| ENewParser
| ENewSync
| ESyncStart
| ESyncIsStopped (answer : bool)
| ESyncStop.

(** ** A small monad: emitted events, then a value or [exit(code)] *)

Inductive outcome (A : Type) :=
| Normal (a : A)
| Exits (status : Z).

Arguments Normal {A} a.
Arguments Exits {A} status.

Definition io (A : Type) : Type := list event * outcome A.

Definition ret {A} (a : A) : io A := ([], Normal a).

Definition bind {A B} (m : io A) (k : A -> io B) : io B :=
  match m with
  | (evs, Normal a) => let '(evs', r) := k a in (evs ++ evs', r)
  | (evs, Exits c) => (evs, Exits c)
  end.

Definition emit (e : event) : io unit := ([e], Normal tt).

Definition exit {A} (c : Z) : io A := ([], Exits c).

Declare Scope io_scope.
Delimit Scope io_scope with io.
Notation "x <- m ;; k" := (bind m (fun x => k))
  (at level 61, m at next level, right associativity) : io_scope.
Notation "m ;; k" := (bind m (fun _ => k))
  (at level 61, right associativity) : io_scope.
Local Open Scope io_scope.

(** ** The environment: what the outside answers *)

Record env := mkEnv {
  argv0 : string;                            (* argv[0] *)
  getopt_results : list (ascii * string);    (* successive returns of getopt
                                                with optarg, before -1 *)
  VERSION : string;                          (* version.h *)
  GIT_COMMIT : string;
  config_default : Kvrocks2redisConfig;      (* a default-constructed Config *)
  config_load : string -> Status * Kvrocks2redisConfig;   (* Config::Load *)
  kvrocks_config_default : Config;
  fork_result : Z;                           (* fork() *)
  fork_strerror : string;                    (* strerror(errno) after it *)
  setsid_result : Z;                         (* setsid() *)
  setsid_strerror : string;
  OpenForReadOnly_result : Status            (* Storage::OpenForReadOnly *)
}.

(** ** The functions of [main.cc] *)

Definition kDefaultConfPath : string := "../kvrocks2redis.conf".
Definition kDefaultPidPath : string := "/var/run/kvrocks2redis.pid".

Record Options := mkOptions {
  conf_file : string;
  pid_file : string;
  show_usage : bool
}.

Definition Options_default : Options :=
  mkOptions kDefaultConfPath kDefaultPidPath false.

Definition usage_text (program : string) : string :=
  program +++ " sync kvrocks to redis" +++ nl
  +++ tab +++ "-c config file, default is " +++ kDefaultConfPath +++ nl
  +++ tab +++ "-p pid file, default is " +++ kDefaultPidPath +++ nl
  +++ tab +++ "-h help" +++ nl.

(** [usage]: print the help text and [exit(0)]. *)
Definition usage {A} (program : string) : io A :=
  emit (ECout (usage_text program)) ;;
  exit 0.

(** The loop of [parseCommandLineOptions] over the answers of
    [getopt(argc, argv, "c:p:hv")]; the list ends where getopt returns -1. *)
Fixpoint parse_loop (program : string) (rs : list (ascii * string))
    (opts : Options) : io Options :=
  match rs with
  | [] => ret opts
  | (ch, optarg) :: rs' =>
      if Ascii.eqb ch "c" then
        parse_loop program rs' (mkOptions optarg (pid_file opts) (show_usage opts))
      else if Ascii.eqb ch "p" then
        parse_loop program rs' (mkOptions (conf_file opts) optarg (show_usage opts))
      else if Ascii.eqb ch "h" then
        parse_loop program rs' (mkOptions (conf_file opts) (pid_file opts) true)
      else if Ascii.eqb ch "v" then
        exit 0
      else
        usage program
  end.

Definition parseCommandLineOptions (e : env) : io Options :=
  parse_loop (argv0 e) (getopt_results e) Options_default.

Definition initGoogleLog (config : Kvrocks2redisConfig) : io unit :=
  emit (EFlag (FLAGS_minloglevel (loglevel config))) ;;
  emit (EFlag (FLAGS_max_log_size 100)) ;;
  emit (EFlag (FLAGS_logbufsecs 0)) ;;
  emit (EFlag (FLAGS_log_dir (dir config))).

(** [fcntl.h] on Linux. *)
Definition O_RDWR : Z := 2.
Definition O_CREAT : Z := 64.
Definition O_EXCL : Z := 128.

(** [createPidFile]; [open_result], [open_strerror] and [pid] are what
    [open], [strerror(errno)] and [getpid] answer. *)
Definition createPidFile (open_result : Z) (open_strerror : string) (pid : Z)
    (path : string) : io Status :=
  let fd := open_result in
  emit (EOpen path (Z.lor (Z.lor O_RDWR O_CREAT) O_EXCL) fd) ;;
  if fd <? 0 then
    ret (mkStatus NotOK open_strerror)
  else
    let pid_str := to_string pid in
    emit (EWrite fd pid_str) ;;
    emit (EClose fd) ;;
    ret Status_OK.

Definition removePidFile (path : string) : io unit :=
  emit (ERemove path).

Definition STDIN_FILENO : Z := 0.
Definition STDOUT_FILENO : Z := 1.
Definition STDERR_FILENO : Z := 2.
Definition EXIT_SUCCESS : Z := 0.

Definition daemonize (e : env) : io unit :=
  let pid := fork_result e in
  emit (EFork pid) ;;
  if pid <? 0 then
    emit (ELog ERROR ("Failed to fork the process, err: " +++ fork_strerror e)) ;;
    exit 1
  else if pid >? 0 then
    exit EXIT_SUCCESS
  else
    emit (EUmask 0) ;;
    emit (ESetsid (setsid_result e)) ;;
    if setsid_result e <? 0 then
      emit (ELog ERROR ("Failed to setsid, err: %s" +++ setsid_strerror e)) ;;
      exit 1
    else
      emit (EClose STDIN_FILENO) ;;
      emit (EClose STDOUT_FILENO) ;;
      emit (EClose STDERR_FILENO).

(** The closure assigned to [hup_handler] in [main]; it captures [sync] and
    [opts] by reference.  [is_stopped] is what [sync.IsStopped()] answers. *)
Definition shutdown_closure (opts : Options) (is_stopped : bool) : io unit :=
  emit (ESyncIsStopped is_stopped) ;;
  if negb is_stopped then
    emit (ELog INFO "Bye Bye") ;;
    emit ESyncStop ;;
    removePidFile (pid_file opts)
  else
    ret tt.

(** The global [std::function<void()> hup_handler]: empty, or the closure. *)
Inductive closure := ShutdownClosure.

Definition signal_handler (hup_handler : option closure) (opts : Options)
    (is_stopped : bool) (sig : signal) : io unit :=
  match hup_handler with
  | Some ShutdownClosure => shutdown_closure opts is_stopped
  | None => ret tt
  end.


(** ** [main] as a machine

    One label per statement of [main]; [L152] is the call of [sync.Start()],
    [InStart] the time spent inside it, [L153] the [return 0]. *)

Inductive label :=
| L105 | L106 | L107 | L109 | L110 | L111 | L113 | L114 | L115 | L116
| L118 | L119 | L120 | L124 | L126 | L128 | L129 | L130 | L131 | L132
| L134 | L135 | L136 | L141 | L142 | L144 | L145 | L152 | InStart | L153
| Finished.

Definition pc_index (l : label) : nat :=
  match l with
  | L105 => 0 | L106 => 1 | L107 => 2 | L109 => 3 | L110 => 4 | L111 => 5
  | L113 => 6 | L114 => 7 | L115 => 8 | L116 => 9 | L118 => 10 | L119 => 11
  | L120 => 12 | L124 => 13 | L126 => 14 | L128 => 15 | L129 => 16
  | L130 => 17 | L131 => 18 | L132 => 19 | L134 => 20 | L135 => 21
  | L136 => 22 | L141 => 23 | L142 => 24 | L144 => 25 | L145 => 26
  | L152 => 27 | InStart => 28 | L153 => 29 | Finished => 30
  end%nat.

Definition past (l : label) (pc : label) : bool :=
  (pc_index l <? pc_index pc)%nat.

Inductive process := Running | Exited (status : Z) | Killed (sig : signal).

Definition signal_eqb (a b : signal) : bool :=
  match a, b with
  | SIGINT, SIGINT | SIGTERM, SIGTERM | SIGPIPE, SIGPIPE => true
  | _, _ => false
  end.

(** The process: where [main] stands, the signal table, the global
    [hup_handler], the locals of [main], and the calls made so far. *)
Record state := mkState {
  pc : label;
  proc : process;
  sigtable : signal -> disposition;
  hup_handler : option closure;
  opts : Options;
  config_file_path : string;
  config : Kvrocks2redisConfig;
  s : Status;
  kvrocks_config : Config;
  trace : list event
}.

Definition init (e : env) : state :=
  mkState L105 Running (fun _ => SIG_DFL) None Options_default ""
          (config_default e) Status_OK (kvrocks_config_default e) [].

Definition goto (l : label) (st : state) : state :=
  mkState l (proc st) (sigtable st) (hup_handler st) (opts st)
          (config_file_path st) (config st) (s st) (kvrocks_config st) (trace st).

Definition log_events (evs : list event) (st : state) : state :=
  mkState (pc st) (proc st) (sigtable st) (hup_handler st) (opts st)
          (config_file_path st) (config st) (s st) (kvrocks_config st)
          (trace st ++ evs).

Definition terminate (p : process) (st : state) : state :=
  mkState (pc st) p (sigtable st) (hup_handler st) (opts st)
          (config_file_path st) (config st) (s st) (kvrocks_config st) (trace st).

(** [signal(sig, h)] *)
Definition install (sig : signal) (h : disposition) (st : state) : state :=
  mkState (pc st) (proc st)
          (fun x => if signal_eqb x sig then h else sigtable st x)
          (hup_handler st) (opts st)
          (config_file_path st) (config st) (s st) (kvrocks_config st)
          (trace st ++ [ESignal sig h]).

Definition set_hup_handler (h : option closure) (st : state) : state :=
  mkState (pc st) (proc st) (sigtable st) h (opts st)
          (config_file_path st) (config st) (s st) (kvrocks_config st) (trace st).

Definition set_opts (o : Options) (st : state) : state :=
  mkState (pc st) (proc st) (sigtable st) (hup_handler st) o
          (config_file_path st) (config st) (s st) (kvrocks_config st) (trace st).

Definition set_config_file_path (p : string) (st : state) : state :=
  mkState (pc st) (proc st) (sigtable st) (hup_handler st) (opts st)
          p (config st) (s st) (kvrocks_config st) (trace st).

Definition set_config (c : Kvrocks2redisConfig) (st : state) : state :=
  mkState (pc st) (proc st) (sigtable st) (hup_handler st) (opts st)
          (config_file_path st) c (s st) (kvrocks_config st) (trace st).

Definition set_s (r : Status) (st : state) : state :=
  mkState (pc st) (proc st) (sigtable st) (hup_handler st) (opts st)
          (config_file_path st) (config st) r (kvrocks_config st) (trace st).

Definition set_kvrocks_config (c : Config) (st : state) : state :=
  mkState (pc st) (proc st) (sigtable st) (hup_handler st) (opts st)
          (config_file_path st) (config st) (s st) c (trace st).

(** Run a call: its events join the trace; if it ends in [exit(c)], so does
    the process, otherwise [main] goes on with the value. *)
Definition call {A} (m : io A) (k : A -> state -> state) (st : state) : state :=
  match m with
  | (evs, Normal a) => k a (log_events evs st)
  | (evs, Exits c) => terminate (Exited c) (log_events evs st)
  end.

(** One statement of [main]. *)
Definition main_step (e : env) (st : state) : state :=
  match pc st with
  | L105 => goto L106 (log_events [EInitGoogleLogging "kvrocks2redis"] st)
  | L106 => goto L107 (log_events [ESetUsageMessage "kvrocks2redis"] st)
  | L107 => goto L109 (log_events [EEvthreadUsePthreads] st)
  | L109 => goto L110 (install SIGPIPE SIG_IGN st)
  | L110 => goto L111 (install SIGINT Handler st)
  | L111 => goto L113 (install SIGTERM Handler st)
  | L113 =>
      goto L114
        (log_events [ECout ("Version: " +++ VERSION e +++ " @" +++ GIT_COMMIT e +++ nl)] st)
  | L114 =>
      call (parseCommandLineOptions e) (fun o st' => goto L115 (set_opts o st')) st
  | L115 =>
      if show_usage (opts st) then call (usage (argv0 e)) (fun (_ : unit) st' => st') st
      else goto L116 st
  | L116 =>
      (* std::move leaves opts.conf_file empty *)
      goto L118
        (set_opts (mkOptions "" (pid_file (opts st)) (show_usage (opts st)))
           (set_config_file_path (conf_file (opts st)) st))
  | L118 => goto L119 (set_config (config_default e) st)
  | L119 =>
      let '(r, c) := config_load e (config_file_path st) in
      goto L120
        (set_s r (set_config c (log_events [EConfigLoad (config_file_path st) r] st)))
  | L120 =>
      if negb (IsOK (s st)) then
        call (emit (ECout ("Failed to load config, err: " +++ Msg (s st) +++ nl)) ;; exit 1)
             (fun (_ : unit) st' => st') st
      else goto L124 st
  | L124 => call (initGoogleLog (config st)) (fun _ st' => goto L126 st') st
  | L126 =>
      if daemonize_flag (config st) then
        call (daemonize e) (fun _ st' => goto L128 st') st
      else goto L128 st
  | L128 => goto L129 (set_kvrocks_config (kvrocks_config_default e) st)
  | L129 =>
      let k := kvrocks_config st in
      goto L130
        (set_kvrocks_config
           (mkConfig (requirepass (config st)) (k_db_name k) (k_db_dir k)
                     (k_max_open_files k)) st)
  | L130 =>
      let k := kvrocks_config st in
      goto L131
        (set_kvrocks_config
           (mkConfig (k_requirepass k) (db_name (config st)) (k_db_dir k)
                     (k_max_open_files k)) st)
  | L131 =>
      let k := kvrocks_config st in
      goto L132
        (set_kvrocks_config
           (mkConfig (k_requirepass k) (k_db_name k) (db_dir (config st))
                     (k_max_open_files k)) st)
  | L132 =>
      let k := kvrocks_config st in
      goto L134
        (set_kvrocks_config
           (mkConfig (k_requirepass k) (k_db_name k) (k_db_dir k)
                     (max_open_files (config st))) st)
  | L134 => goto L135 (log_events [ENewStorage (kvrocks_config st)] st)
  | L135 =>
      let r := OpenForReadOnly_result e in
      goto L136 (set_s r (log_events [EStorageOpen ReadOnly r] st))
  | L136 =>
      if negb (IsOK (s st)) then
        call (emit (ELog ERROR ("Failed to open: " +++ Msg (s st))) ;; exit 1)
             (fun (_ : unit) st' => st') st
      else goto L141 st
  | L141 => goto L142 (log_events [ENewRedisWriter (config st)] st)
  | L142 => goto L144 (log_events [ENewParser] st)
  | L144 => goto L145 (log_events [ENewSync] st)
  | L145 => goto L152 (set_hup_handler (Some ShutdownClosure) st)
  | L152 => goto InStart (log_events [ESyncStart] st)
  | InStart => goto L153 st
  | L153 => goto Finished (terminate (Exited 0) st)
  | Finished => st
  end.

(** Delivery of a signal to the process, by the signal table: the default
    action of these three signals ends the process, an ignored signal does
    nothing, and [Handler] runs [signal_handler]. *)
Definition deliver (sig : signal) (is_stopped : bool) (st : state) : state :=
  match sigtable st sig with
  | SIG_DFL => terminate (Killed sig) st
  | SIG_IGN => st
  | Handler =>
      call (signal_handler (hup_handler st) (opts st) is_stopped sig)
           (fun _ st' => st') st
  end.

(** An execution is a schedule: at each point either [main] makes its next
    statement or a signal arrives; [is_stopped] is what [sync.IsStopped()]
    would answer at that moment.  Nothing happens once the process ended. *)
Inductive action :=
| MainStep
| Deliver (sig : signal) (is_stopped : bool).

Definition act (e : env) (a : action) (st : state) : state :=
  match proc st with
  | Running =>
      match a with
      | MainStep => main_step e st
      | Deliver sig b => deliver sig b st
      end
  | _ => st
  end.

Definition exec (e : env) (sched : list action) (st : state) : state :=
  fold_left (fun st a => act e a st) sched st.

Definition reachable (e : env) (st : state) : Prop :=
  exists sched, st = exec e sched (init e).

(** [main] run to its end without any signal. *)
Definition main (e : env) : state :=
  exec e (repeat MainStep 31) (init e).

(** ** Sample environments *)

Definition sample_config : Kvrocks2redisConfig :=
  mkK2RConfig 1 "/var/log/k2r" false "secret" "db" "/data/kvrocks" 4096.

Definition sample_env : env :=
  mkEnv "kvrocks2redis" [("c"%char, "k2r.conf"); ("p"%char, "/tmp/k2r.pid")]
        "1.0.0" "abcdef"
        (mkK2RConfig 0 "" false "" "" "" 0)
        (fun _ => (Status_OK, sample_config))
        (mkConfig "" "" "" 0)
        0 "" 0 "" Status_OK.

(** ** Reading a trace *)

(** Some event of the trace is in the class [Q]. *)
Definition has (Q : event -> bool) (tr : list event) : bool := existsb Q tr.

(** How many events of the trace are in the class [Q]. *)
Definition count (Q : event -> bool) (tr : list event) : nat :=
  List.length (filter Q tr).

(** Every event of class [Q2] comes after some event of class [Q1]. *)
Definition precedes (Q1 Q2 : event -> bool) (tr : list event) : Prop :=
  forall before b after,
    tr = before ++ b :: after -> Q2 b = true -> has Q1 before = true.

(** The same, as a scan of the trace; [seen] tells whether an event of
    class [Q1] has passed. *)
Fixpoint precedesb (Q1 Q2 : event -> bool) (seen : bool) (tr : list event) : bool :=
  match tr with
  | [] => true
  | x :: r => (if Q2 x then seen else true) && precedesb Q1 Q2 (seen || Q1 x) r
  end.

(** Classes of events. *)

Definition is_sigpipe_ign (ev : event) : bool :=
  match ev with ESignal SIGPIPE SIG_IGN => true | _ => false end.

Definition is_prologue (ev : event) : bool :=
  match ev with
  | EInitGoogleLogging _ | ESetUsageMessage _ | EEvthreadUsePthreads => true
  | _ => false
  end.

Definition is_config_load (ev : event) : bool :=
  match ev with EConfigLoad _ _ => true | _ => false end.

Definition is_flag (ev : event) : bool :=
  match ev with EFlag _ => true | _ => false end.

Definition is_fork (ev : event) : bool :=
  match ev with EFork _ => true | _ => false end.

Definition is_new_storage (ev : event) : bool :=
  match ev with ENewStorage _ => true | _ => false end.

Definition is_open (m : open_mode) (ev : event) : bool :=
  match ev, m with
  | EStorageOpen ReadOnly _, ReadOnly => true
  | EStorageOpen ReadWrite _, ReadWrite => true
  | _, _ => false
  end.

Definition is_storage (ev : event) : bool :=
  match ev with ENewStorage _ | EStorageOpen _ _ => true | _ => false end.

(** The pipeline components: writer, parser, orchestrator. *)
Definition is_component (ev : event) : bool :=
  match ev with
  | ENewRedisWriter _ | ENewParser | ENewSync | ESyncStart => true
  | _ => false
  end.

Definition is_new_sync (ev : event) : bool :=
  match ev with ENewSync => true | _ => false end.

Definition is_sync_start (ev : event) : bool :=
  match ev with ESyncStart => true | _ => false end.

Definition is_sync_stop (ev : event) : bool :=
  match ev with ESyncStop => true | _ => false end.

(** The calls of [createPidFile] that create and fill the file. *)
Definition is_pid_file_creation (ev : event) : bool :=
  match ev with EOpen _ _ _ | EWrite _ _ => true | _ => false end.

Definition is_remove (ev : event) : bool :=
  match ev with ERemove _ => true | _ => false end.

(** The calls that only the shutdown closure makes. *)
Definition is_shutdown (ev : event) : bool :=
  match ev with
  | ESyncIsStopped _ | ESyncStop | ERemove _ | ELog INFO _ => true
  | _ => false
  end.

Definition is_error_log (ev : event) : bool :=
  match ev with ELog ERROR _ => true | _ => false end.

Definition is_cout (ev : event) : bool :=
  match ev with ECout _ => true | _ => false end.

(** A diagnostic: text on standard output, or an entry of the error log. *)
Definition is_diagnostic (ev : event) : bool :=
  is_cout ev || is_error_log ev.

(** What an unrecognized option is to [parseCommandLineOptions]: an answer
    of getopt outside [c], [p], [h], [v] (getopt answers [?]). *)
Definition recognized (ch : ascii) : bool :=
  Ascii.eqb ch "c" || Ascii.eqb ch "p" || Ascii.eqb ch "h" || Ascii.eqb ch "v".

Definition has_unrecognized (rs : list (ascii * string)) : bool :=
  existsb (fun r => negb (recognized (fst r))) rs.

(** ** The replication pipeline and its checkpoint *)

Section PipelineModel.

Variables RawRecord LogicalOperation : Type.

Definition SequenceNumber := N.

(** Modelled from the spec: the Raw Write Batch of the data model,
    [{sequence, records}]; the type lives in the engine and in [sync.cc],
    not in [main.cc]. *)
Record RawWriteBatch := mkBatch {
  sequence : SequenceNumber;
  records : list RawRecord
}.

(** Modelled from the spec: what the Batch Decoder answers ([parser.cc] is
    not under src/): the ordered logical operations of the batch, or a
    DecodeError on a malformed layout, with the operations of the records
    that could still be resolved. *)
Inductive decoded :=
| Decoded (ops : list LogicalOperation)
| DecodeError (resolved : list LogicalOperation).

Variable Decode : RawWriteBatch -> decoded.

(** Modelled from the spec: the configured policy on a decode error,
    skip-and-continue or halt-and-report. *)
Inductive decode_policy := SkipAndContinue | HaltAndReport.

(** The operations the pipeline sends for a batch, if it goes on with it. *)
Definition emitted (policy : decode_policy) (b : RawWriteBatch)
  : option (list LogicalOperation) :=
  match Decode b with
  | Decoded ops => Some ops
  | DecodeError resolved =>
      match policy with
      | SkipAndContinue => Some resolved
      | HaltAndReport => None
      end
  end.

(** Modelled from the spec: the storage engine's change log: the committed
    batches in commit order, and the first sequence number the engine can
    still serve (what lies below has been purged). *)
Record change_log := mkLog {
  oldest : SequenceNumber;
  history : list RawWriteBatch
}.

(** Modelled from the spec: the Change Reader's [Open(fromSequence)]: a
    cursor over the log starting at [fromSequence], or OpenError ([None])
    if the requested sequence has been purged. *)
Definition Open (fromSequence : SequenceNumber) (eng : change_log)
  : option (list RawWriteBatch) :=
  if (fromSequence <? oldest eng)%N then None
  else Some (filter (fun b => (fromSequence <=? sequence b)%N) (history eng)).

(** Modelled from the spec: the state of the Sync Orchestrator ([sync.cc]
    is not under src/).  [checkpoint] is the only durable state the system
    owns; [target] is what the target server has acknowledged, each
    operation with the sequence of its batch; [progress] (the last applied
    sequence, in memory), [cursor] and [in_flight] (the batch being sent,
    its operations, and those still to send) are lost in a crash;
    [halted] tells that the pipeline stopped on a decode error. *)
Record bridge := mkBridge {
  checkpoint : SequenceNumber;
  target : list (SequenceNumber * LogicalOperation);
  progress : SequenceNumber;
  cursor : list RawWriteBatch;
  in_flight : option (RawWriteBatch * list LogicalOperation * list LogicalOperation);
  halted : bool
}.

(** Modelled from the spec: [Start()] loads the checkpoint and opens the
    cursor at the resume point, the sequence after the last applied one; an
    OpenError is fatal, with no partial start. *)
Definition Start (eng : change_log) (S0 : SequenceNumber)
    (acked : list (SequenceNumber * LogicalOperation)) : option bridge :=
  match Open (N.succ S0) eng with
  | None => None
  | Some c => Some (mkBridge S0 acked S0 c None false)
  end.

(** Modelled from the spec: one unit of work of the pump loop; [ok] tells
    whether the unit's I/O succeeds.
    - Nothing in flight: pull the next batch and decode it; on a decode
      error go on with the resolvable operations or halt, by the policy;
      with nothing to pull the loop waits.
    - Operations left to send: send the next one; on a SendError the whole
      batch is sent again after the reconnect.
    - All operations acknowledged: the batch is applied; persist the
      checkpoint to its sequence number; on a checkpoint write error the
      progress is kept in memory and the next batch persists again. *)
Definition pump (policy : decode_policy) (ok : bool) (st : bridge) : bridge :=
  if halted st then st
  else
    match in_flight st with
    | None =>
        match cursor st with
        | [] => st
        | b :: rest =>
            match emitted policy b with
            | Some ops =>
                mkBridge (checkpoint st) (target st) (progress st) rest
                         (Some (b, ops, ops)) false
            | None =>
                mkBridge (checkpoint st) (target st) (progress st) (cursor st)
                         None true
            end
        end
    | Some (b, all, op :: ops) =>
        if ok then
          mkBridge (checkpoint st) (target st ++ [(sequence b, op)]) (progress st)
                   (cursor st) (Some (b, all, ops)) false
        else
          mkBridge (checkpoint st) (target st) (progress st)
                   (cursor st) (Some (b, all, all)) false
    | Some (b, all, []) =>
        mkBridge (if ok then sequence b else checkpoint st) (target st)
                 (sequence b) (cursor st) None false
    end.

(** The pump loop over the outcomes of its successive units of work. *)
Definition run (policy : decode_policy) (oks : list bool) (st : bridge) : bridge :=
  fold_left (fun st ok => pump policy ok st) oks st.

(** Modelled from the spec: a crash keeps the persisted checkpoint and what
    the target holds; the restart starts again from them, on the change
    log as it is then. *)
Definition restart (eng : change_log) (crashed : bridge) : option bridge :=
  Start eng (checkpoint crashed) (target crashed).

(** The operations of the batch with sequence number [k] among the
    acknowledged operations [acked], in the order they were sent. *)
Definition delivered_ops (acked : list (SequenceNumber * LogicalOperation))
    (k : SequenceNumber) : list LogicalOperation :=
  map snd (filter (fun d => (fst d =? k)%N) acked).

(** A batch is applied when all its operations are acknowledged: the
    progress has reached it, or it is in flight with nothing left to send. *)
Definition applied (st : bridge) (b : RawWriteBatch) : bool :=
  (sequence b <=? progress st)%N
  || match in_flight st with
     | Some (b', _, []) => (sequence b' =? sequence b)%N
     | _ => false
     end.

(** The batch in flight, if any. *)
Definition in_flight_batch (st : bridge) : list RawWriteBatch :=
  match in_flight st with
  | Some (b, _, _) => [b]
  | None => []
  end.

(** What a unit of work of the pump loop adds to the acknowledged
    operations. *)
Definition pump_sends (ok : bool) (st : bridge)
  : list (SequenceNumber * LogicalOperation) :=
  if halted st then []
  else
    match in_flight st with
    | Some (b, _, op :: _) => if ok then [(sequence b, op)] else []
    | _ => []
    end.

(** The change log has strictly increasing sequence numbers. *)
Fixpoint increasing (log : list RawWriteBatch) : Prop :=
  match log with
  | [] => True
  | b :: rest =>
      Forall (fun b' => (sequence b < sequence b')%N) rest /\ increasing rest
  end.

(** What holds of the pump loop that started from checkpoint [S0] over the
    batches [log], [sent] being the operations acknowledged since: the
    cursor stands right after the progress and the batch in flight; the
    checkpoint never runs ahead of the progress; a batch the progress has
    passed has had all its operations acknowledged, in order, as the last
    of its deliveries; the batch in flight those it has sent since it was
    last begun; a batch still in the cursor none. *)
Definition consistent (policy : decode_policy) (log : list RawWriteBatch)
    (S0 : SequenceNumber) (sent : list (SequenceNumber * LogicalOperation))
    (st : bridge) : Prop :=
  filter (fun b => (progress st <? sequence b)%N) log
  = in_flight_batch st ++ cursor st
  /\ (S0 <= checkpoint st)%N
  /\ (checkpoint st <= progress st)%N
  /\ (progress st = S0 \/ exists b, In b log /\ sequence b = progress st)
  /\ (forall b, In b log -> (S0 < sequence b)%N ->
                (sequence b <= progress st)%N ->
                exists earlier all,
                  emitted policy b = Some all
                  /\ delivered_ops sent (sequence b) = earlier ++ all)
  /\ (forall b, In b (cursor st) -> delivered_ops sent (sequence b) = [])
  /\ (forall b all rest, in_flight st = Some (b, all, rest) ->
        emitted policy b = Some all
        /\ exists earlier done,
             delivered_ops sent (sequence b) = earlier ++ done
             /\ all = done ++ rest).

(** What holds of a pump loop that resumed from checkpoint [S]: it sends
    operations of batches after [S] only. *)
Definition resumed_above (S : SequenceNumber)
    (sent : list (SequenceNumber * LogicalOperation)) (st : bridge) : Prop :=
  Forall (fun d => (S < fst d)%N) sent
  /\ Forall (fun b => (S < sequence b)%N) (cursor st)
  /\ Forall (fun b => (S < sequence b)%N) (in_flight_batch st).

End PipelineModel.

Arguments mkBatch {RawRecord} sequence records.
Arguments sequence {RawRecord} r.
Arguments records {RawRecord} r.
Arguments Decoded {LogicalOperation} ops.
Arguments DecodeError {LogicalOperation} resolved.
Arguments emitted {RawRecord LogicalOperation} Decode policy b.
Arguments mkLog {RawRecord} oldest history.
Arguments oldest {RawRecord} c.
Arguments history {RawRecord} c.
Arguments Open {RawRecord} fromSequence eng.
Arguments mkBridge {RawRecord LogicalOperation}.
Arguments checkpoint {RawRecord LogicalOperation} b.
Arguments target {RawRecord LogicalOperation} b.
Arguments progress {RawRecord LogicalOperation} b.
Arguments cursor {RawRecord LogicalOperation} b.
Arguments in_flight {RawRecord LogicalOperation} b.
Arguments halted {RawRecord LogicalOperation} b.
Arguments Start {RawRecord LogicalOperation} eng S0 acked.
Arguments pump {RawRecord LogicalOperation} Decode policy ok st.
Arguments run {RawRecord LogicalOperation} Decode policy oks st.
Arguments restart {RawRecord LogicalOperation} eng crashed.
Arguments delivered_ops {LogicalOperation} acked k.
Arguments applied {RawRecord LogicalOperation} st b.
Arguments in_flight_batch {RawRecord LogicalOperation} st.
Arguments pump_sends {RawRecord LogicalOperation} ok st.
Arguments increasing {RawRecord} log.
Arguments consistent {RawRecord LogicalOperation} Decode policy log S0 sent st.
Arguments resumed_above {RawRecord LogicalOperation} S sent st.

(** ** Invariants of the executions *)

Definition label_eqb (a b : label) : bool := (pc_index a =? pc_index b)%nat.

Definition exited (p : process) : bool :=
  match p with Exited _ => true | _ => false end.

(** Statement [l] has been executed: [main] is past it, or ended in it. *)
Definition executed (l : label) (st : state) : bool :=
  past l (pc st) || (label_eqb l (pc st) && exited (proc st)).

Definition after_prologue (ev : event) : bool :=
  negb (is_prologue ev || is_sigpipe_ign ev).

Definition is_daemon_or_storage (ev : event) : bool := is_fork ev || is_storage ev.

(** The calls of [daemonize], its log entries apart. *)
Definition is_daemon_call (ev : event) : bool :=
  match ev with
  | EFork _ | EUmask _ | ESetsid _ | EClose _ => true
  | _ => false
  end.

(** The options [parseCommandLineOptions] returns, if it returns. *)
Definition parsed_opts (e : env) : option Options :=
  match snd (parseCommandLineOptions e) with
  | Normal o => Some o
  | Exits _ => None
  end.

(** What the closure adds to the trace. *)
Definition shutdown_events (o : Options) (is_stopped : bool) : list event :=
  ESyncIsStopped is_stopped
  :: (if is_stopped then []
      else [ELog INFO "Bye Bye"; ESyncStop; ERemove (pid_file o)]).

(** What the configuration file path answers to [Config::Load]. *)
Definition loaded (e : env) (path : string) : Status * Kvrocks2redisConfig :=
  config_load e path.

(** The globals and the signal table, by the position of [main], and which
    calls the trace holds. *)
Definition shape (e : env) (st : state) : Prop :=
  hup_handler st = (if past L145 (pc st) then Some ShutdownClosure else None)
  /\ sigtable st SIGPIPE = (if past L109 (pc st) then SIG_IGN else SIG_DFL)
  /\ sigtable st SIGINT = (if past L110 (pc st) then Handler else SIG_DFL)
  /\ sigtable st SIGTERM = (if past L111 (pc st) then Handler else SIG_DFL)
  /\ (past L145 (pc st) = false -> has is_shutdown (trace st) = false)
  /\ has is_pid_file_creation (trace st) = false
  /\ has is_sigpipe_ign (trace st) = past L109 (pc st)
  /\ has after_prologue (trace st) = past L110 (pc st)
  /\ has is_config_load (trace st) = past L119 (pc st)
  /\ has is_flag (trace st) = past L124 (pc st)
  /\ has is_fork (trace st) = executed L126 st && daemonize_flag (config st)
  /\ has is_daemon_or_storage (trace st)
     = (executed L126 st && daemonize_flag (config st)) || past L134 (pc st)
  /\ has is_storage (trace st) = past L134 (pc st)
  /\ has (is_open ReadOnly) (trace st) = past L135 (pc st)
  /\ has is_component (trace st) = past L141 (pc st)
  /\ has is_new_sync (trace st) = past L144 (pc st)
  /\ has is_sync_start (trace st) = past L152 (pc st).

(** The locals of [main], by its position, and the calls that carry them. *)
Definition locals (e : env) (st : state) : Prop :=
  (past L114 (pc st) = true ->
   option_map pid_file (parsed_opts e) = Some (pid_file (opts st)))
  /\ (past L126 (pc st) = true -> daemonize_flag (config st) = true ->
      fork_result e = 0 /\ 0 <= setsid_result e)
  /\ (past L126 (pc st) = false -> exited (proc st) = false ->
      filter is_daemon_call (trace st) = [])
  /\ (past L126 (pc st) = true -> daemonize_flag (config st) = true ->
      filter is_daemon_call (trace st)
      = [EFork 0; EUmask 0; ESetsid (setsid_result e);
         EClose STDIN_FILENO; EClose STDOUT_FILENO; EClose STDERR_FILENO])
  /\ (past L119 (pc st) = true -> config st = snd (loaded e (config_file_path st)))
  /\ (past L119 (pc st) = true -> past L135 (pc st) = false ->
      s st = fst (loaded e (config_file_path st)))
  /\ (past L120 (pc st) = true -> IsOK (fst (loaded e (config_file_path st))) = true)
  /\ (past L135 (pc st) = true -> s st = OpenForReadOnly_result e)
  /\ (past L136 (pc st) = true -> IsOK (OpenForReadOnly_result e) = true)
  /\ filter is_config_load (trace st)
     = (if past L119 (pc st)
        then [EConfigLoad (config_file_path st) (fst (loaded e (config_file_path st)))] else [])
  /\ filter is_flag (trace st)
     = (if past L124 (pc st)
        then [EFlag (FLAGS_minloglevel (loglevel (config st)));
              EFlag (FLAGS_max_log_size 100);
              EFlag (FLAGS_logbufsecs 0);
              EFlag (FLAGS_log_dir (dir (config st)))]
        else [])
  /\ filter is_storage (trace st)
     = (if past L135 (pc st)
        then [ENewStorage (kvrocks_config st);
              EStorageOpen ReadOnly (OpenForReadOnly_result e)]
        else if past L134 (pc st) then [ENewStorage (kvrocks_config st)]
        else []).

(** How the process can have ended, by the statement it ended in. *)
Definition exit_status (e : env) (st : state) : Prop :=
  match proc st with
  | Running => pc st <> Finished
  | Killed sig => sigtable st sig = SIG_DFL
  | Exited c =>
      match pc st with
      | L114 | L115 => c = 0
      | L120 =>
          c = 1 /\ IsOK (s st) = false
          /\ In (ECout ("Failed to load config, err: " +++ Msg (s st) +++ nl)) (trace st)
      | L126 =>
          daemonize_flag (config st) = true
          /\ ((c = 0 /\ fork_result e > 0)
              \/ (c = 1
                  /\ (fork_result e < 0
                      \/ (fork_result e = 0 /\ setsid_result e < 0))
                  /\ has is_error_log (trace st) = true))
      | L136 =>
          c = 1 /\ IsOK (s st) = false
          /\ In (ELog ERROR ("Failed to open: " +++ Msg (s st))) (trace st)
      | Finished => c = 0 /\ has is_sync_start (trace st) = true
      | _ => False
      end
  end.

(** The order of the calls. *)
Definition order (e : env) (st : state) : Prop :=
  precedesb is_sigpipe_ign after_prologue false (trace st) = true
  /\ precedesb (is_open ReadOnly) is_component false (trace st) = true
  /\ precedesb is_config_load is_flag false (trace st) = true
  /\ precedesb is_flag is_daemon_or_storage false (trace st) = true
  /\ precedesb is_fork is_storage (negb (daemonize_flag (config st))) (trace st) = true.

Definition invariant (e : env) (st : state) : Prop :=
  shape e st /\ locals e st /\ exit_status e st /\ order e st.

(** ** Sample inputs and what a startup failure is *)

Definition startup_failure (diag : event) (st : state) : Prop :=
  proc st = Exited 1
  /\ In diag (trace st)
  /\ is_diagnostic diag = true
  /\ has is_component (trace st) = false.

Definition env_config_missing : env :=
  mkEnv "kvrocks2redis" [] "1.0.0" "abcdef"
        (mkK2RConfig 0 "" false "" "" "" 0)
        (fun _ => (mkStatus NotOK "no such file", mkK2RConfig 0 "" false "" "" "" 0))
        (mkConfig "" "" "" 0)
        0 "" 0 "" Status_OK.


Definition env_unknown_option : env :=
  mkEnv "kvrocks2redis" [("?"%char, "")] "1.0.0" "abcdef"
        (mkK2RConfig 0 "" false "" "" "" 0)
        (fun _ => (Status_OK, sample_config))
        (mkConfig "" "" "" 0)
        0 "" 0 "" Status_OK.

Definition env_daemon : env :=
  mkEnv "kvrocks2redis" [] "1.0.0" "abcdef"
        (mkK2RConfig 0 "" false "" "" "" 0)
        (fun _ => (Status_OK,
                   mkK2RConfig 1 "/var/log/k2r" true "secret" "db" "/data/kvrocks" 4096))
        (mkConfig "" "" "" 0)
        0 "" 1 "" Status_OK.

(** A change log of three batches whose records are their operations,
    nothing purged, and the decoder that reads them off. *)
Definition sample_log : change_log nat :=
  mkLog 0%N
        [mkBatch 10%N [1%nat]; mkBatch 11%N [2%nat; 3%nat]; mkBatch 12%N [4%nat]].

Definition decode_records (b : RawWriteBatch nat) : decoded nat :=
  Decoded (records b).

(** The pipeline started on [sample_log] from checkpoint 9. *)
Definition sample_start : bridge nat nat :=
  mkBridge 9%N [] 9%N (history sample_log) None false.

(** ** The option loop, read as a whole *)

(** The options that let the loop of [parseCommandLineOptions] go on. *)
Definition continues (ch : ascii) : bool :=
  Ascii.eqb ch "c" || Ascii.eqb ch "p" || Ascii.eqb ch "h".

(** The first answer of getopt that ends the loop is [v]. *)
Definition stops_at_version (rs : list (ascii * string)) : bool :=
  match find (fun r => negb (continues (fst r))) rs with
  | Some (ch, _) => Ascii.eqb ch "v"
  | None => false
  end.

(** The argument of the last option [ch] among the answers of getopt, or
    [d] if there is none. *)
Definition last_optarg (ch : ascii) (rs : list (ascii * string)) (d : string)
  : string :=
  fold_left (fun acc r => if Ascii.eqb (fst r) ch then snd r else acc) rs d.

Definition is_not_stopped_answer (ev : event) : bool :=
  match ev with ESyncIsStopped false => true | _ => false end.

Definition is_bye (ev : event) : bool :=
  match ev with ELog INFO _ => true | _ => false end.

(** The engine configuration [main] builds from the loaded one. *)
Definition engine_config (c : Kvrocks2redisConfig) : Config :=
  mkConfig (requirepass c) (db_name c) (db_dir c) (max_open_files c).

(** More on the locals of [main] by its position: the options, the engine
    configuration, the pipeline components constructed so far, and the
    calls of the shutdown closure. *)
Definition wiring (e : env) (st : state) : Prop :=
  (past L114 (pc st) = true -> past L116 (pc st) = false ->
   option_map conf_file (parsed_opts e) = Some (conf_file (opts st)))
  /\ (past L116 (pc st) = true ->
      option_map conf_file (parsed_opts e) = Some (config_file_path st))
  /\ (past L114 (pc st) = true ->
      option_map show_usage (parsed_opts e) = Some (show_usage (opts st)))
  /\ (past L115 (pc st) = true -> show_usage (opts st) = false)
  /\ (past L129 (pc st) = true ->
      k_requirepass (kvrocks_config st) = requirepass (config st))
  /\ (past L130 (pc st) = true ->
      k_db_name (kvrocks_config st) = db_name (config st))
  /\ (past L131 (pc st) = true ->
      k_db_dir (kvrocks_config st) = db_dir (config st))
  /\ (past L132 (pc st) = true ->
      k_max_open_files (kvrocks_config st) = max_open_files (config st))
  /\ filter is_component (trace st)
     = (if past L152 (pc st)
        then [ENewRedisWriter (config st); ENewParser; ENewSync; ESyncStart]
        else if past L144 (pc st)
        then [ENewRedisWriter (config st); ENewParser; ENewSync]
        else if past L142 (pc st)
        then [ENewRedisWriter (config st); ENewParser]
        else if past L141 (pc st) then [ENewRedisWriter (config st)]
        else [])
  /\ count is_sync_stop (trace st) = count is_not_stopped_answer (trace st)
  /\ count is_remove (trace st) = count is_not_stopped_answer (trace st)
  /\ count is_bye (trace st) = count is_not_stopped_answer (trace st).

(** The calls every run of [main] starts with, up to the version line. *)
Definition banner (e : env) : list event :=
  [EInitGoogleLogging "kvrocks2redis"; ESetUsageMessage "kvrocks2redis";
   EEvthreadUsePthreads; ESignal SIGPIPE SIG_IGN; ESignal SIGINT Handler;
   ESignal SIGTERM Handler;
   ECout ("Version: " +++ VERSION e +++ " @" +++ GIT_COMMIT e +++ nl)].

(** How the option loop can end: it returns the options, or exits with 0
    silently (on [-v]) or after the usage text. *)
Inductive parse_result (program : string) : io Options -> Prop :=
| ParseDone o : parse_result program ([], Normal o)
| ParseVersion : parse_result program ([], Exits 0)
| ParseUsage : parse_result program ([ECout (usage_text program)], Exits 0).

(** * Properties *)

(** ** Traces *)

Lemma has_app Q (a b : list event) : has Q (a ++ b) = has Q a || has Q b.
Proof. apply existsb_app. Qed.

Lemma count_app Q (a b : list event) : count Q (a ++ b) = (count Q a + count Q b)%nat.
Proof. unfold count. rewrite filter_app, length_app. reflexivity. Qed.

Lemma has_In Q tr : has Q tr = true <-> exists ev, In ev tr /\ Q ev = true.
Proof. apply existsb_exists. Qed.

Lemma precedesb_app Q1 Q2 seen a b :
  precedesb Q1 Q2 seen (a ++ b)
  = precedesb Q1 Q2 seen a && precedesb Q1 Q2 (seen || has Q1 a) b.
Proof.
  revert seen. induction a as [|x a IH]; intro seen; simpl.
  - now rewrite orb_false_r.
  - rewrite IH, <- andb_assoc, orb_assoc. reflexivity.
Qed.

Lemma precedesb_sound Q1 Q2 tr seen :
  precedesb Q1 Q2 seen tr = true ->
  forall before b after,
    tr = before ++ b :: after -> Q2 b = true -> seen || has Q1 before = true.
Proof.
  intros H before b after ->.
  rewrite precedesb_app in H. apply andb_prop in H as [_ H].
  simpl in H. apply andb_prop in H as [H _].
  intro Hb. rewrite Hb in H. exact H.
Qed.

Lemma precedesb_precedes Q1 Q2 tr :
  precedesb Q1 Q2 false tr = true -> precedes Q1 Q2 tr.
Proof.
  intros H before b after Heq Hb.
  exact (precedesb_sound Q1 Q2 tr false H before b after Heq Hb).
Qed.

(** ** Executions *)

Lemma exec_app e s1 s2 st : exec e (s1 ++ s2) st = exec e s2 (exec e s1 st).
Proof. apply fold_left_app. Qed.

Lemma reachable_init e : reachable e (init e).
Proof. exists []. reflexivity. Qed.

Lemma reachable_act e a st : reachable e st -> reachable e (act e a st).
Proof.
  intros [sched ->]. exists (sched ++ [a]). now rewrite exec_app.
Qed.

Lemma reachable_ind (e : env) (P : state -> Prop) :
  P (init e) ->
  (forall st, P st -> proc st = Running -> P (main_step e st)) ->
  (forall st sig b, P st -> proc st = Running -> P (deliver sig b st)) ->
  forall st, reachable e st -> P st.
Proof.
  intros H0 Hmain Hsig st [sched ->].
  induction sched as [|a sched IH] using rev_ind; [exact H0|].
  rewrite exec_app. simpl. unfold act.
  destruct (proc (exec e sched (init e))) eqn:Hp; try exact IH.
  destruct a; [apply Hmain | apply Hsig]; assumption.
Qed.

(** ** The command line *)

Lemma parse_loop_result program rs o : parse_result program (parse_loop program rs o).
Proof.
  revert o. induction rs as [|[ch optarg] rs IH]; intro o; simpl.
  - constructor.
  - destruct (Ascii.eqb ch "c"); [apply IH|].
    destruct (Ascii.eqb ch "p"); [apply IH|].
    destruct (Ascii.eqb ch "h"); [apply IH|].
    destruct (Ascii.eqb ch "v"); constructor.
Qed.

Lemma parse_loop_unrecognized program rs o :
  has_unrecognized rs = true ->
  exists evs, parse_loop program rs o = (evs, Exits 0).
Proof.
  revert o. induction rs as [|[ch optarg] rs IH]; intro o; simpl.
  - discriminate.
  - unfold recognized. intro H.
    destruct (Ascii.eqb ch "c"); [apply IH; exact H|].
    destruct (Ascii.eqb ch "p"); [apply IH; exact H|].
    destruct (Ascii.eqb ch "h"); [apply IH; exact H|].
    destruct (Ascii.eqb ch "v"); eexists; reflexivity.
Qed.

(** ** Invariants *)

Arguments usage_text : simpl never.
Arguments String.append : simpl never.
Arguments loaded : simpl never.

Ltac use_eqs :=
  repeat match goal with
         | H : has _ _ = _ |- _ => rewrite H
         | H : filter _ _ = _ |- _ => rewrite H
         | H : precedesb _ _ _ _ = _ |- _ => rewrite H
         | H : daemonize_flag _ = _ |- _ => rewrite H
         | H : IsOK _ = _ |- _ => rewrite H
         end.

Ltac branch_on_env e :=
  repeat (match goal with
  | |- context [parseCommandLineOptions e] =>
      let Hr := fresh "Hr" in
      let Hparse := fresh "Hparse" in
      pose proof (parse_loop_result (argv0 e) (getopt_results e) Options_default) as Hr;
      fold (parseCommandLineOptions e) in Hr;
      destruct (parseCommandLineOptions e) eqn:Hparse;
      inversion Hr; subst; clear Hr
  | |- context [config_load e ?p] => destruct (config_load e p) eqn:?
  | |- context [fork_result e <? 0] => destruct (Z.ltb_spec (fork_result e) 0)
  | |- context [fork_result e >? 0] => destruct (Z.gtb_spec (fork_result e) 0)
  | |- context [setsid_result e <? 0] => destruct (Z.ltb_spec (setsid_result e) 0)
  | |- context [if show_usage ?o then _ else _] => destruct (show_usage o) eqn:?
  | |- context [if negb (IsOK ?r) then _ else _] => destruct (IsOK r) eqn:?
  | |- context [if daemonize_flag ?c then _ else _] => destruct (daemonize_flag c) eqn:?
  end; simpl).

Ltac crunch :=
  cbv [past executed label_eqb exited pc_index Nat.ltb Nat.leb Nat.eqb] in *;
  simpl in *.

Ltac split_all :=
  repeat match goal with
         | H : _ /\ _ |- _ => destruct H
         end;
  repeat split; intros;
  repeat match goal with
         | H : ?a = ?a -> _ |- _ => specialize (H eq_refl)
         | H : ?P -> _, H' : ?P |- _ => specialize (H H')
         end.

Ltac finish :=
  use_eqs; simpl;
  first [ reflexivity | assumption | discriminate | congruence | lia
        | match goal with |- context [daemonize_flag ?c] =>
            destruct (daemonize_flag c); reflexivity end
        | idtac ].

Ltac run_main_step e :=
  unfold main_step, call, daemonize; simpl; crunch;
  branch_on_env e;
  rewrite ?has_app, ?filter_app, ?precedesb_app; simpl.

Lemma shape_main_step e st :
  shape e st -> proc st = Running -> shape e (main_step e st).
Proof.
  destruct st as [pc0 p tbl hup o path cfg s0 kc tr]; unfold shape; simpl.
  intros H ->.
  destruct pc0; run_main_step e.
  all: split_all; finish.
Qed.

Lemma precedesb_none Q1 Q2 seen tr :
  has Q2 tr = false -> precedesb Q1 Q2 seen tr = true.
Proof.
  revert seen. induction tr as [|x tr IH]; intro seen; simpl; [reflexivity|].
  intro H. apply orb_false_elim in H as [Hx Htr].
  rewrite Hx. simpl. apply IH. exact Htr.
Qed.

Lemma log_no_events st : log_events [] st = st.
Proof. destruct st; unfold log_events; simpl. now rewrite app_nil_r. Qed.

Lemma deliver_cases sig b st :
  (sigtable st sig = SIG_DFL /\ deliver sig b st = terminate (Killed sig) st)
  \/ ((sigtable st sig = SIG_IGN
       \/ (sigtable st sig = Handler /\ hup_handler st = None))
      /\ deliver sig b st = st)
  \/ (sigtable st sig = Handler /\ hup_handler st = Some ShutdownClosure
      /\ deliver sig b st = log_events (shutdown_events (opts st) b) st).
Proof.
  unfold deliver. destruct (sigtable st sig); auto.
  destruct (hup_handler st) as [[]|]; simpl.
  - right; right. repeat split. destruct b; reflexivity.
  - right; left. unfold call, ret. rewrite log_no_events. auto.
Qed.

Ltac deliver_cases st sig b :=
  let Hsig := fresh "Hsig" in
  let Hhup := fresh "Hhup" in
  let Hd := fresh "Hd" in
  destruct (deliver_cases sig b st)
    as [[Hsig Hd] | [[Hsig Hd] | (Hsig & Hhup & Hd)]];
  rewrite Hd; clear Hd.

Lemma shape_deliver e st sig b :
  shape e st -> proc st = Running -> shape e (deliver sig b st).
Proof.
  intros H Hp. deliver_cases st sig b; [ | exact H | ].
  - destruct st as [pc0 p tbl hup o path cfg s0 kc tr]; simpl in *; subst p.
    exact H.
  - destruct st as [pc0 p tbl hup o path cfg s0 kc tr]; unfold shape in *; simpl in *.
    subst p hup.
    assert (Hpast : past L145 pc0 = true).
    { destruct H as [H _]. destruct (past L145 pc0); [reflexivity|discriminate]. }
    destruct pc0; try discriminate Hpast; clear Hpast; crunch.
    all: destruct b; simpl; rewrite ?has_app; simpl.
    all: split_all; finish.
Qed.

Lemma locals_main_step e st :
  shape e st -> locals e st -> proc st = Running -> locals e (main_step e st).
Proof.
  destruct st as [pc0 p tbl hup o path cfg s0 kc tr]; unfold shape, locals; simpl.
  intros _ H ->.
  destruct pc0; run_main_step e.
  all: split_all; finish.
  all: unfold loaded, parsed_opts in *;
    repeat match goal with
           | H : config_load _ _ = _ |- _ => rewrite H in *
           | H : parseCommandLineOptions _ = _ |- _ => rewrite H in *
           end.
  all: simpl in *; finish.
  all: try (assert (Hf : fork_result e = 0) by lia; rewrite Hf; reflexivity).
Qed.

Lemma locals_deliver e st sig b :
  locals e st -> proc st = Running -> locals e (deliver sig b st).
Proof.
  intros H Hp. deliver_cases st sig b; [ | exact H | ].
  - destruct st as [pc0 p tbl hup o path cfg s0 kc tr]; simpl in *; subst p.
    exact H.
  - destruct st as [pc0 p tbl hup o path cfg s0 kc tr]; unfold locals in *; simpl in *.
    destruct b; simpl; rewrite !filter_app; simpl; rewrite !app_nil_r; exact H.
Qed.

Lemma exit_status_main_step e st :
  shape e st -> exit_status e st -> proc st = Running ->
  exit_status e (main_step e st).
Proof.
  destruct st as [pc0 p tbl hup o path cfg s0 kc tr]; unfold shape, exit_status; simpl.
  intros Hs H ->.
  destruct pc0; run_main_step e.
  all: split_all; finish.
  all: try (apply in_or_app; right; left; reflexivity).
  all: try (left; split; [reflexivity | lia]).
  all: try (right; split; [reflexivity | split; [lia | reflexivity]]).
Qed.

Lemma exit_status_deliver e st sig b :
  exit_status e st -> proc st = Running -> exit_status e (deliver sig b st).
Proof.
  intros H Hp. deliver_cases st sig b; [ | exact H | ].
  - destruct st; unfold exit_status; simpl in *. exact Hsig.
  - destruct st; unfold exit_status in *; simpl in *. subst. exact H.
Qed.

Lemma order_main_step e st :
  shape e st -> order e st -> proc st = Running -> order e (main_step e st).
Proof.
  destruct st as [pc0 p tbl hup o path cfg s0 kc tr]; unfold shape, order; simpl.
  intros Hs H ->.
  destruct pc0; run_main_step e.
  all: split_all;
    try rewrite (precedesb_none is_fork is_storage) by assumption; finish.
Qed.

Lemma order_deliver e st sig b :
  shape e st -> order e st -> proc st = Running -> order e (deliver sig b st).
Proof.
  intros Hs H Hp. deliver_cases st sig b; [ | exact H | ].
  - destruct st as [pc0 p tbl hup o path cfg s0 kc tr]; simpl in *; subst p.
    exact H.
  - destruct st as [pc0 p tbl hup o path cfg s0 kc tr];
      unfold shape, order in *; simpl in *.
    subst p hup.
    assert (Hpast : past L145 pc0 = true).
    { destruct Hs as [Hs _]. destruct (past L145 pc0); [reflexivity|discriminate]. }
    destruct pc0; try discriminate Hpast; clear Hpast; crunch.
    all: destruct b; simpl; rewrite ?precedesb_app; simpl.
    all: split_all; finish.
Qed.

Lemma invariant_init e : invariant e (init e).
Proof.
  unfold invariant, shape, locals, exit_status, order; simpl; crunch.
  split_all; try reflexivity; try discriminate.
Qed.

Lemma reachable_invariant e st : reachable e st -> invariant e st.
Proof.
  apply reachable_ind.
  - apply invariant_init.
  - intros st0 (Hs & Hl & Hx & Ho) Hp. split; [|split; [|split]].
    + now apply shape_main_step.
    + now apply locals_main_step.
    + now apply exit_status_main_step.
    + now apply order_main_step.
  - intros st0 sig b (Hs & Hl & Hx & Ho) Hp. split; [|split; [|split]].
    + now apply shape_deliver.
    + now apply locals_deliver.
    + now apply exit_status_deliver.
    + now apply order_deliver.
Qed.

(** ** Consequences of the invariants *)

Lemma exec_halted e sched st : proc st <> Running -> exec e sched st = st.
Proof.
  intro H. induction sched as [|a sched IH]; [reflexivity|].
  assert (Ha : act e a st = st)
    by (unfold act; destruct (proc st); [congruence | reflexivity | reflexivity]).
  unfold exec in *. simpl. rewrite Ha. exact IH.
Qed.

Lemma main_reachable e : reachable e (main e).
Proof. exists (repeat MainStep 31). reflexivity. Qed.

Lemma has_filter (P Q : event -> bool) tr :
  (forall ev, Q ev = true -> P ev = true) ->
  has Q tr = has Q (filter P tr).
Proof.
  intro Hsub. induction tr as [|x tr IH]; [reflexivity|]. simpl.
  destruct (P x) eqn:HP; simpl; rewrite IH; [reflexivity|].
  destruct (Q x) eqn:HQ; [|reflexivity].
  apply Hsub in HQ. congruence.
Qed.

Lemma count_filter (P Q : event -> bool) tr :
  (forall ev, Q ev = true -> P ev = true) ->
  count Q tr = count Q (filter P tr).
Proof.
  intro Hsub. unfold count. induction tr as [|x tr IH]; [reflexivity|]. simpl.
  destruct (P x) eqn:HP; simpl; destruct (Q x) eqn:HQ; simpl; rewrite IH;
    try reflexivity.
  apply Hsub in HQ. congruence.
Qed.

Lemma is_open_storage m ev : is_open m ev = true -> is_storage ev = true.
Proof. destruct ev; simpl; try discriminate; reflexivity. Qed.

Lemma In_filter_singleton (Q : event -> bool) tr x ev :
  filter Q tr = [x] -> In ev tr -> Q ev = true -> ev = x.
Proof.
  intros Hf Hin HQ.
  assert (H : In ev (filter Q tr)) by (apply filter_In; auto).
  rewrite Hf in H. destruct H as [H|[]]. now symmetry.
Qed.

Lemma In_has (Q : event -> bool) tr ev : In ev tr -> Q ev = true -> has Q tr = true.
Proof. intros. apply has_In. eauto. Qed.

(** Once the three handlers are installed no signal of the model ends the
    process. *)
Lemma installed_not_killed e st sig :
  reachable e st -> past L111 (pc st) = true -> proc st <> Killed sig.
Proof.
  intros Hr Hpast Hk. apply reachable_invariant in Hr.
  destruct Hr as (Hs & _ & Hx & _).
  unfold exit_status in Hx. rewrite Hk in Hx.
  destruct Hs as (_ & Hp & Hi & Ht & _).
  destruct st as [pc0 p tbl hup o path cfg s0 kc tr]; simpl in *.
  destruct pc0; try discriminate Hpast; crunch; destruct sig; congruence.
Qed.

Lemma act_trace_grows e a st :
  exists evs, trace (act e a st) = trace st ++ evs.
Proof.
  unfold act. destruct (proc st) eqn:Hp; try (exists []; now rewrite app_nil_r).
  destruct a as [|sig b].
  - destruct st as [pc0 p tbl hup o path cfg s0 kc tr]; simpl in *.
    destruct pc0; unfold main_step, call, daemonize; simpl;
      repeat match goal with
      | |- context [parseCommandLineOptions e] => destruct (parseCommandLineOptions e) as [? []]
      | |- context [config_load e ?p] => destruct (config_load e p)
      | |- context [if ?c then _ else _] => destruct c
      end; simpl;
      try (eexists; reflexivity); try (exists []; now rewrite app_nil_r).
  - destruct (deliver_cases sig b st) as [[_ Hd] | [[_ Hd] | (_ & _ & Hd)]];
      rewrite Hd; destruct st; simpl; try (eexists; reflexivity);
      exists []; now rewrite app_nil_r.
Qed.

Lemma act_keeps_has e a st Q :
  has Q (trace st) = true -> has Q (trace (act e a st)) = true.
Proof.
  intro H. destruct (act_trace_grows e a st) as [evs ->].
  rewrite has_app, H. reflexivity.
Qed.

(** ** Exit codes (C2) *)

Lemma finished_exit_0 e st :
  reachable e st -> pc st = Finished -> proc st = Exited 0.
Proof.
  intros Hr Hpc. pose proof (reachable_invariant e st Hr) as (_ & _ & Hx & _).
  unfold exit_status in Hx. destruct (proc st) as [|c|sig] eqn:Hp.
  - contradiction.
  - rewrite Hpc in Hx. destruct Hx as [-> _]. reflexivity.
  - exfalso. apply (installed_not_killed e st sig Hr); [|exact Hp].
    rewrite Hpc. reflexivity.
Qed.

Lemma config_failure_exits e st path r :
  reachable e st -> In (EConfigLoad path r) (trace st) -> IsOK r = false ->
  startup_failure (ECout ("Failed to load config, err: " +++ Msg r +++ nl))
                  (act e MainStep st).
Proof.
  intros Hr Hin Hbad.
  pose proof (reachable_invariant e st Hr) as (Hs & Hl & Hx & _).
  pose proof (installed_not_killed e st) as Hk. specialize (Hk SIGINT Hr) as Hk1.
  assert (Hload : has is_config_load (trace st) = true)
    by (eapply In_has; [exact Hin | reflexivity]).
  unfold act, exit_status, startup_failure in *.
  destruct st as [pc0 p tbl hup o pth cfg s0 kc tr]; unfold shape, locals in *;
    simpl in *.
  destruct Hs as (_ & _ & _ & _ & _ & _ & _ & _ & Hcl & _ & _ & _ & _ & _ & Hcomp & _).
  destruct Hl as (_ & _ & _ & _ & _ & Hs0 & Hok & _ & _ & Hf & _).
  rewrite Hload in Hcl.
  destruct pc0; try discriminate Hcl; crunch.
  all: specialize (Hs0 eq_refl); try specialize (Hok eq_refl).
  all: pose proof (In_filter_singleton _ _ _ _ Hf Hin eq_refl) as Heq;
    injection Heq as -> ->.
  all: try congruence.
  specialize (Hs0 eq_refl). subst s0.
  destruct p as [|c|sig].
  - unfold main_step, call; simpl. rewrite Hbad. simpl.
    rewrite has_app, Hcomp. repeat split. apply in_or_app. right. left. reflexivity.
  - destruct Hx as (-> & _ & Hx). repeat split; assumption.
  - exfalso. destruct sig; eapply (installed_not_killed e _ _ Hr); reflexivity.
Qed.

Lemma open_failure_exits e st r :
  reachable e st -> In (EStorageOpen ReadOnly r) (trace st) -> IsOK r = false ->
  startup_failure (ELog ERROR ("Failed to open: " +++ Msg r)) (act e MainStep st).
Proof.
  intros Hr Hin Hbad.
  pose proof (reachable_invariant e st Hr) as (Hs & Hl & Hx & _).
  assert (Hopen : has (is_open ReadOnly) (trace st) = true)
    by (eapply In_has; [exact Hin | reflexivity]).
  assert (Hin' : In (EStorageOpen ReadOnly r) (filter is_storage (trace st)))
    by (apply filter_In; auto).
  unfold act, exit_status, startup_failure in *.
  destruct st as [pc0 p tbl hup o pth cfg s0 kc tr]; unfold shape, locals in *;
    simpl in *.
  destruct Hs as (_ & _ & _ & _ & _ & _ & _ & _ & _ & _ & _ & _ & _ & Hro & Hcomp & _).
  destruct Hl as (_ & _ & _ & _ & _ & _ & _ & Hs0 & Hok & _ & _ & Hf).
  rewrite Hopen in Hro. rewrite Hf in Hin'. clear Hf.
  destruct pc0; try discriminate Hro; crunch.
  all: specialize (Hs0 eq_refl); try specialize (Hok eq_refl).
  all: destruct Hin' as [Heq | [Heq | []]]; try discriminate Heq;
    injection Heq as Heq; subst r.
  all: try congruence.
  subst s0.
  destruct p as [|c|sig].
  - unfold main_step, call; simpl. rewrite Hbad. simpl.
    rewrite has_app, Hcomp. repeat split. apply in_or_app. right. left. reflexivity.
  - destruct Hx as (-> & _ & Hx). repeat split; assumption.
  - exfalso. destruct sig; eapply (installed_not_killed e _ _ Hr); reflexivity.
Qed.

(** C2.  In every execution: when [main] returns (after [sync.Start()]
    came back) the exit code is 0; once [Config::Load] has answered a
    failure, the next statement of [main] prints "Failed to load config"
    on standard output and exits with code 1; once
    [Storage::OpenForReadOnly] has answered a failure, the next statement
    writes "Failed to open" to the error log and exits with code 1; in
    both failures no writer, parser or orchestrator has been constructed
    or started. *)
Theorem exit_codes (e : env) (st : state) :
  reachable e st ->
  (pc st = Finished -> proc st = Exited 0)
  /\ (forall path r,
        In (EConfigLoad path r) (trace st) -> IsOK r = false ->
        startup_failure (ECout ("Failed to load config, err: " +++ Msg r +++ nl))
                        (act e MainStep st))
  /\ (forall r,
        In (EStorageOpen ReadOnly r) (trace st) -> IsOK r = false ->
        startup_failure (ELog ERROR ("Failed to open: " +++ Msg r))
                        (act e MainStep st)).
Proof.
  intro Hr. split; [|split].
  - apply (finished_exit_0 e); exact Hr.
  - intros path r. apply config_failure_exits; exact Hr.
  - intro r. apply open_failure_exits; exact Hr.
Qed.

Lemma exit_codes_witness :
  proc (act env_config_missing MainStep (main env_config_missing)) = Exited 1
  /\ proc (main sample_env) = Exited 0.
Proof.
  split.
  - refine (proj1 (proj1 (proj2 (exit_codes env_config_missing
              (main env_config_missing) (main_reachable env_config_missing)))
              "../kvrocks2redis.conf" (mkStatus NotOK "no such file") _ _)).
    + vm_compute. do 7 right. left. reflexivity.
    + reflexivity.
  - refine (proj1 (exit_codes sample_env (main sample_env)
                     (main_reachable sample_env)) _).
    vm_compute. reflexivity.
Defined.

(** ** Signals (C3, C8, C9, C10) *)

Lemma hup_handler_by_pc e st :
  reachable e st ->
  hup_handler st = (if past L145 (pc st) then Some ShutdownClosure else None).
Proof.
  intro Hr. pose proof (reachable_invariant e st Hr) as (Hs & _). apply Hs.
Qed.

Lemma handlers_installed e st sig :
  reachable e st -> past L111 (pc st) = true -> sig <> SIGPIPE ->
  sigtable st sig = Handler.
Proof.
  intros Hr Hpast Hsig.
  pose proof (reachable_invariant e st Hr) as ((_ & _ & Hi & Ht & _) & _).
  destruct st as [pc0 p tbl hup o path cfg s0 kc tr]; simpl in *.
  destruct pc0; try discriminate Hpast; crunch; destruct sig; congruence.
Qed.

Lemma closure_trace (e : env) (st : state) (sig : signal) (b : bool) :
  reachable e st -> past L145 (pc st) = true -> sig <> SIGPIPE ->
  trace (deliver sig b st) = trace st ++ shutdown_events (opts st) b.
Proof.
  intros Hr Hpast Hsig.
  pose proof (hup_handler_by_pc e st Hr) as Hhup. rewrite Hpast in Hhup.
  assert (Hh : sigtable st sig = Handler).
  { apply (handlers_installed e); auto.
    destruct (pc st); try discriminate Hpast; reflexivity. }
  destruct (deliver_cases sig b st) as [[H _] | [[[H | [_ H]] _] | (_ & _ & ->)]];
    try congruence.
  reflexivity.
Qed.

(** C3, as the code has it.  Whenever SIGINT or SIGTERM is delivered after
    the shutdown closure has been assigned to [hup_handler] (the statement
    that follows the construction of the orchestrator), the handler first
    queries [IsStopped()]; if the orchestrator is not stopped it logs,
    calls [Stop()] and removes the pid file at [opts.pid_file]; if it is
    already stopped it does nothing more, so [Stop()] is never called on a
    stopped orchestrator. *)
Theorem shutdown_forwarded (e : env) (st : state) (sig : signal) (b : bool) :
  reachable e st -> past L145 (pc st) = true -> sig <> SIGPIPE ->
  has is_new_sync (trace st) = true
  /\ trace (deliver sig b st)
     = trace st
       ++ ESyncIsStopped b
          :: (if b then []
              else [ELog INFO "Bye Bye"; ESyncStop; ERemove (pid_file (opts st))]).
Proof.
  intros Hr Hpast Hsig. split.
  - pose proof (reachable_invariant e st Hr) as (Hs & _).
    unfold shape in Hs.
    destruct Hs as (_ & _ & _ & _ & _ & _ & _ & _ & _ & _ & _ & _ & _ & _ & _ & Hn & _).
    rewrite Hn. destruct (pc st); try discriminate Hpast; reflexivity.
  - rewrite (closure_trace e st sig b Hr Hpast Hsig). reflexivity.
Qed.

Lemma shutdown_forwarded_witness :
  has is_sync_stop
    (trace (deliver SIGTERM false
              (exec sample_env (repeat MainStep 28) (init sample_env)))) = true.
Proof.
  assert (Hr : reachable sample_env
                 (exec sample_env (repeat MainStep 28) (init sample_env)))
    by (exists (repeat MainStep 28); reflexivity).
  assert (Hsig : SIGTERM <> SIGPIPE) by discriminate.
  rewrite (proj2 (shutdown_forwarded sample_env _ SIGTERM false Hr eq_refl Hsig)).
  rewrite has_app. apply orb_true_r.
Defined.

(** C3 as stated fails in the one statement between the construction of
    the orchestrator and the assignment of the closure: the orchestrator
    exists, SIGINT runs [signal_handler], and nothing is forwarded. *)
Lemma shutdown_not_forwarded_before_assignment :
  let st := exec sample_env (repeat MainStep 26) (init sample_env) in
  has is_new_sync (trace st) = true
  /\ proc st = Running
  /\ sigtable st SIGINT = Handler
  /\ trace (act sample_env (Deliver SIGINT false) st) = trace st
  /\ has is_sync_stop (trace (act sample_env (Deliver SIGINT false) st)) = false.
Proof. vm_compute. repeat split. Qed.

(** C10.  A SIGINT or SIGTERM delivered after the handlers are installed
    and before the closure is assigned runs [signal_handler], which finds
    [hup_handler] empty and does nothing: the process is left as it was.
    [signal_handler] calls the closure only when [hup_handler] holds one.
    As long as the orchestrator does not exist the closure is not assigned. *)
Theorem empty_handler_no_action (e : env) (st : state) (sig : signal) (b : bool) :
  reachable e st -> past L111 (pc st) = true -> past L145 (pc st) = false ->
  sig <> SIGPIPE ->
  sigtable st sig = Handler
  /\ hup_handler st = None
  /\ signal_handler (hup_handler st) (opts st) b sig = ret tt
  /\ deliver sig b st = st
  /\ (forall o, signal_handler (Some ShutdownClosure) o b sig = shutdown_closure o b)
  /\ (forall st', reachable e st' -> has is_new_sync (trace st') = false ->
                  hup_handler st' = None).
Proof.
  intros Hr H111 H145 Hsig.
  pose proof (hup_handler_by_pc e st Hr) as Hhup. rewrite H145 in Hhup.
  pose proof (handlers_installed e st sig Hr H111 Hsig) as Hh.
  repeat split; auto.
  - rewrite Hhup. reflexivity.
  - destruct (deliver_cases sig b st) as [[H _] | [[_ H] | (_ & H & _)]];
      congruence.
  - intros st' Hr' Hn. rewrite (hup_handler_by_pc e st' Hr').
    pose proof (reachable_invariant e st' Hr') as (Hs & _). unfold shape in Hs.
    destruct Hs as (_ & _ & _ & _ & _ & _ & _ & _ & _ & _ & _ & _ & _ & _ & _ & Hs & _).
    rewrite Hn in Hs. destruct (pc st'); try discriminate Hs; reflexivity.
Qed.

Lemma empty_handler_no_action_witness :
  deliver SIGINT false (exec sample_env (repeat MainStep 10) (init sample_env))
  = exec sample_env (repeat MainStep 10) (init sample_env).
Proof.
  assert (Hr : reachable sample_env
                 (exec sample_env (repeat MainStep 10) (init sample_env)))
    by (exists (repeat MainStep 10); reflexivity).
  assert (Hsig : SIGINT <> SIGPIPE) by discriminate.
  exact (proj1 (proj2 (proj2 (proj2
           (empty_handler_no_action sample_env _ SIGINT false Hr eq_refl eq_refl Hsig))))).
Defined.

(** C8.  In every execution the call [signal(SIGPIPE, SIG_IGN)] comes
    before every other call of the program except the three that open
    [main] (glog, gflags and libevent set-up); from then on the signal
    table ignores SIGPIPE, so its delivery (a write on a reset connection)
    leaves the process as it is instead of ending it. *)
Theorem sigpipe_ignored_first (e : env) (st : state) :
  reachable e st ->
  precedes is_sigpipe_ign after_prologue (trace st)
  /\ (has after_prologue (trace st) = true ->
      sigtable st SIGPIPE = SIG_IGN
      /\ forall b, deliver SIGPIPE b st = st).
Proof.
  intro Hr. pose proof (reachable_invariant e st Hr) as (Hs & _ & _ & Ho).
  split.
  - apply precedesb_precedes. apply Ho.
  - intro Hafter. unfold shape in Hs.
    destruct Hs as (_ & Hp & _ & _ & _ & _ & _ & Ha & _).
    rewrite Hafter in Ha.
    assert (Hign : sigtable st SIGPIPE = SIG_IGN).
    { rewrite Hp. destruct (pc st); try discriminate Ha; reflexivity. }
    split; [exact Hign|].
    intro b. unfold deliver. rewrite Hign. reflexivity.
Qed.

Lemma sigpipe_ignored_first_witness :
  sigtable (main sample_env) SIGPIPE = SIG_IGN
  /\ (forall b, deliver SIGPIPE b (main sample_env) = main sample_env).
Proof.
  refine (proj2 (sigpipe_ignored_first sample_env (main sample_env)
                   (main_reachable sample_env)) _).
  vm_compute. reflexivity.
Defined.

Lemma createPidFile_creates r msg pid path :
  exists evs out,
    createPidFile r msg pid path
    = (EOpen path (Z.lor (Z.lor O_RDWR O_CREAT) O_EXCL) r :: evs, out).
Proof.
  unfold createPidFile. simpl. destruct (r <? 0); simpl; eauto.
Qed.

(** C9.  No execution of the program creates the pid file: the trace never
    holds the exclusive [open] (or the [write]) with which [createPidFile]
    begins, so [createPidFile] is never called from [main] or from the
    handler.  The shutdown closure, when it finds the orchestrator running,
    still removes the file at [opts.pid_file], the path given with [-p] or
    the default. *)
Theorem pid_file_never_created (e : env) (st : state) :
  reachable e st ->
  has is_pid_file_creation (trace st) = false
  /\ (forall r msg pid path,
        has is_pid_file_creation (fst (createPidFile r msg pid path)) = true)
  /\ (forall sig, past L145 (pc st) = true -> sig <> SIGPIPE ->
        In (ERemove (pid_file (opts st))) (trace (deliver sig false st)))
  /\ (past L114 (pc st) = true ->
        option_map pid_file (parsed_opts e) = Some (pid_file (opts st))).
Proof.
  intro Hr. pose proof (reachable_invariant e st Hr) as (Hs & Hl & _).
  split; [|split; [|split]].
  - apply Hs.
  - intros r msg pid path.
    destruct (createPidFile_creates r msg pid path) as (evs & out & ->).
    reflexivity.
  - intros sig Hpast Hsig.
    rewrite (closure_trace e st sig false Hr Hpast Hsig).
    apply in_or_app. right. simpl. auto.
  - apply Hl.
Qed.

Lemma pid_file_never_created_witness :
  In (ERemove "/tmp/k2r.pid")
     (trace (deliver SIGINT false (exec sample_env (repeat MainStep 28) (init sample_env))))
  /\ has is_pid_file_creation (trace (main sample_env)) = false.
Proof.
  split.
  - assert (Hr : reachable sample_env
                   (exec sample_env (repeat MainStep 28) (init sample_env)))
      by (exists (repeat MainStep 28); reflexivity).
    assert (Hsig : SIGINT <> SIGPIPE) by discriminate.
    exact (proj1 (proj2 (proj2 (pid_file_never_created sample_env _ Hr)))
             SIGINT eq_refl Hsig).
  - exact (proj1 (pid_file_never_created sample_env (main sample_env)
                    (main_reachable sample_env))).
Defined.

(** ** The command line (C4) *)

Lemma main_first_steps e :
  exec e (repeat MainStep 7) (init e)
  = mkState L114 Running
      (fun x => if signal_eqb x SIGTERM then Handler
                else if signal_eqb x SIGINT then Handler
                else if signal_eqb x SIGPIPE then SIG_IGN else SIG_DFL)
      None Options_default "" (config_default e) Status_OK
      (kvrocks_config_default e)
      [EInitGoogleLogging "kvrocks2redis"; ESetUsageMessage "kvrocks2redis";
       EEvthreadUsePthreads; ESignal SIGPIPE SIG_IGN; ESignal SIGINT Handler;
       ESignal SIGTERM Handler;
       ECout ("Version: " +++ VERSION e +++ " @" +++ GIT_COMMIT e +++ nl)].
Proof. reflexivity. Qed.

Lemma parse_step_exit e st evs c :
  pc st = L114 -> proc st = Running ->
  parseCommandLineOptions e = (evs, Exits c) ->
  proc (act e MainStep st) = Exited c.
Proof.
  intros Hpc Hp Hparse. unfold act. rewrite Hp.
  unfold main_step, call. rewrite Hpc, Hparse. reflexivity.
Qed.

Lemma main_parse_exit e evs c :
  parseCommandLineOptions e = (evs, Exits c) -> proc (main e) = Exited c.
Proof.
  intro Hparse. unfold main.
  change (repeat MainStep 31)
    with (repeat MainStep 7 ++ [MainStep] ++ repeat MainStep 23).
  rewrite !exec_app.
  pose proof (parse_step_exit e (exec e (repeat MainStep 7) (init e)) evs c) as H.
  rewrite main_first_steps in *.
  specialize (H eq_refl eq_refl Hparse).
  change (exec e [MainStep] ?st) with (act e MainStep st).
  rewrite exec_halted; [exact H | rewrite H; discriminate].
Qed.

Lemma parse_step_trace e st evs c :
  pc st = L114 -> proc st = Running ->
  parseCommandLineOptions e = (evs, Exits c) ->
  trace (act e MainStep st) = trace st ++ evs.
Proof.
  intros Hpc Hp Hparse. unfold act. rewrite Hp.
  unfold main_step, call. rewrite Hpc, Hparse. reflexivity.
Qed.

Lemma main_parse_exit_trace e evs c :
  parseCommandLineOptions e = (evs, Exits c) -> trace (main e) = banner e ++ evs.
Proof.
  intro Hparse. unfold main.
  change (repeat MainStep 31)
    with (repeat MainStep 7 ++ [MainStep] ++ repeat MainStep 23).
  rewrite !exec_app.
  pose proof (parse_step_exit e (exec e (repeat MainStep 7) (init e)) evs c) as H.
  pose proof (parse_step_trace e (exec e (repeat MainStep 7) (init e)) evs c) as Ht.
  rewrite main_first_steps in *.
  specialize (H eq_refl eq_refl Hparse). specialize (Ht eq_refl eq_refl Hparse).
  change (exec e [MainStep] ?st) with (act e MainStep st).
  rewrite exec_halted; [exact Ht | rewrite H; discriminate].
Qed.

(** What the option loop prints when some answer of getopt is not
    recognized: nothing if a [-v] ends it first, the usage text otherwise. *)
Lemma parse_loop_unrecognized_prints program rs o :
  has_unrecognized rs = true ->
  parse_loop program rs o
  = (if stops_at_version rs then [] else [ECout (usage_text program)], Exits 0).
Proof.
  unfold stops_at_version.
  revert o. induction rs as [|[ch optarg] rs IH]; intro o; simpl.
  - discriminate.
  - unfold recognized, continues. intro H.
    destruct (Ascii.eqb ch "c"); [apply IH; exact H|].
    destruct (Ascii.eqb ch "p"); [apply IH; exact H|].
    destruct (Ascii.eqb ch "h"); [apply IH; exact H|].
    simpl. destruct (Ascii.eqb ch "v"); reflexivity.
Qed.

Lemma parsed_opts_unrecognized e :
  has_unrecognized (getopt_results e) = true ->
  exists evs, parseCommandLineOptions e = (evs, Exits 0).
Proof. apply parse_loop_unrecognized. Qed.

Lemma exit_before_parse_end e st c :
  reachable e st -> parsed_opts e = None -> proc st = Exited c -> c = 0.
Proof.
  intros Hr Hnone Hp.
  pose proof (reachable_invariant e st Hr) as (_ & Hl & Hx & _).
  unfold exit_status in Hx. rewrite Hp in Hx.
  destruct Hl as (Hparsed & _). rewrite Hnone in Hparsed.
  destruct (pc st); try exact Hx; try contradiction;
    try (specialize (Hparsed eq_refl); discriminate).
Qed.

(** C4, as the code has it.  An invocation with an unrecognized option
    exits with code 0: getopt answers a character outside [c], [p], [h],
    [v], the [default] branch calls [usage], and [usage] prints the usage
    text and ends in [exit(0)].  The whole run is the opening calls, the
    version line and the usage text, the usage text being left out only
    when a [-v] ends the option loop first.  The configuration is never
    loaded, and no execution of such an invocation exits with another code. *)
Theorem unrecognized_option_exits_0 (e : env) :
  has_unrecognized (getopt_results e) = true ->
  proc (main e) = Exited 0
  /\ trace (main e)
     = banner e
       ++ (if stops_at_version (getopt_results e) then []
           else [ECout (usage_text (argv0 e))])
  /\ has is_config_load (trace (main e)) = false
  /\ (forall st c, reachable e st -> proc st = Exited c -> c = 0).
Proof.
  intro Hun.
  pose proof (parse_loop_unrecognized_prints (argv0 e) (getopt_results e)
                Options_default Hun) as Hparse.
  fold (parseCommandLineOptions e) in Hparse.
  assert (Hnone : parsed_opts e = None)
    by (unfold parsed_opts; rewrite Hparse; reflexivity).
  split; [|split; [|split]].
  - apply (main_parse_exit e _ 0 Hparse).
  - apply (main_parse_exit_trace e _ 0 Hparse).
  - pose proof (reachable_invariant e (main e) (main_reachable e))
      as (Hs & Hl & _).
    destruct Hl as (Hparsed & _). rewrite Hnone in Hparsed.
    destruct Hs as (_ & _ & _ & _ & _ & _ & _ & _ & -> & _).
    destruct (pc (main e)); try reflexivity;
      specialize (Hparsed eq_refl); discriminate.
  - intros st c Hr Hp. exact (exit_before_parse_end e st c Hr Hnone Hp).
Qed.

Lemma unrecognized_option_exits_0_witness :
  proc (main env_unknown_option) = Exited 0
  /\ trace (main env_unknown_option)
     = banner env_unknown_option ++ [ECout (usage_text "kvrocks2redis")].
Proof.
  exact (conj (proj1 (unrecognized_option_exits_0 env_unknown_option eq_refl))
              (proj1 (proj2 (unrecognized_option_exits_0 env_unknown_option
                               eq_refl)))).
Defined.

(** C4 as stated fails: with the one option [-x], to which getopt answers
    [?], the program prints the usage text and exits with code 0. *)
Lemma unrecognized_option_not_nonzero :
  has_unrecognized (getopt_results env_unknown_option) = true
  /\ proc (main env_unknown_option) = Exited 0
  /\ In (ECout (usage_text "kvrocks2redis")) (trace (main env_unknown_option))
  /\ ~ (exists c, proc (main env_unknown_option) = Exited c /\ c <> 0).
Proof.
  split; [reflexivity|]. split; [vm_compute; reflexivity|].
  split; [vm_compute; do 7 right; left; reflexivity|].
  intros (c & Hc & Hne). vm_compute in Hc. injection Hc as <-. apply Hne. reflexivity.
Qed.

(** ** The storage engine (C5) *)

(** C5.  In every execution the engine is opened at most once and only
    through [OpenForReadOnly]; an execution that reaches the pipeline (a
    writer, parser or orchestrator is constructed or started) has opened
    it exactly once, and that open comes before every such component;
    [main] never opens the engine read-write. *)
Theorem storage_opened_once_read_only (e : env) (st : state) :
  reachable e st ->
  (count (is_open ReadOnly) (trace st) <= 1)%nat
  /\ (has is_component (trace st) = true ->
      count (is_open ReadOnly) (trace st) = 1%nat)
  /\ precedes (is_open ReadOnly) is_component (trace st)
  /\ has (is_open ReadWrite) (trace st) = false.
Proof.
  intro Hr. pose proof (reachable_invariant e st Hr) as (Hs & Hl & _ & Ho).
  destruct Hl as (_ & _ & _ & _ & _ & _ & _ & _ & _ & _ & _ & Hf).
  destruct Hs as (_ & _ & _ & _ & _ & _ & _ & _ & _ & _ & _ & _ & _ & _ & Hc & _).
  rewrite (count_filter is_storage) by apply is_open_storage.
  rewrite (has_filter is_storage (is_open ReadWrite)) by apply is_open_storage.
  rewrite Hf, Hc.
  split; [|split; [|split]].
  - destruct (past L135 (pc st)); [|destruct (past L134 (pc st))];
      unfold count; simpl; lia.
  - destruct (pc st); try discriminate; reflexivity.
  - apply precedesb_precedes. apply Ho.
  - destruct (past L135 (pc st)); [|destruct (past L134 (pc st))]; reflexivity.
Qed.

Lemma storage_opened_once_read_only_witness :
  count (is_open ReadOnly) (trace (main sample_env)) = 1%nat.
Proof.
  refine (proj1 (proj2 (storage_opened_once_read_only sample_env (main sample_env)
                          (main_reachable sample_env))) _).
  vm_compute. reflexivity.
Defined.

(** ** Daemonization (C6) *)

Lemma executed_past_load l pc0 p :
  (pc_index L119 < pc_index l)%nat ->
  past l pc0 || (label_eqb l pc0 && exited p) = true -> past L119 pc0 = true.
Proof.
  unfold past, label_eqb. intros Hl H.
  apply orb_prop in H as [H | H].
  - apply Nat.ltb_lt in H. apply Nat.ltb_lt. lia.
  - apply andb_prop in H as [H _]. apply Nat.eqb_eq in H. apply Nat.ltb_lt. lia.
Qed.

(** C6.  The process forks exactly when [main] has executed its statement
    [if (config.daemonize) daemonize()] with the flag of the loaded
    configuration set, and then before the engine is constructed or
    opened.  When it does: a failed [fork] is logged and exits with 1; the
    parent (positive pid) exits with 0; in the child a failed [setsid] is
    logged and exits with 1; otherwise the child has called [umask(0)],
    [setsid()] and closed descriptors 0, 1 and 2, and [main] goes on. *)
Theorem daemonize_iff_flag (e : env) (st : state) :
  reachable e st ->
  has is_fork (trace st)
  = executed L126 st
    && daemonize_flag (snd (config_load e (config_file_path st)))
  /\ (has is_fork (trace st) = true -> precedes is_fork is_storage (trace st))
  /\ (has is_fork (trace st) = true ->
      (fork_result e < 0 /\ proc st = Exited 1
       /\ has is_error_log (trace st) = true)
      \/ (fork_result e > 0 /\ proc st = Exited 0)
      \/ (fork_result e = 0 /\ setsid_result e < 0 /\ proc st = Exited 1
          /\ has is_error_log (trace st) = true)
      \/ (fork_result e = 0 /\ 0 <= setsid_result e
          /\ past L126 (pc st) = true
          /\ filter is_daemon_call (trace st)
             = [EFork 0; EUmask 0; ESetsid (setsid_result e);
                EClose STDIN_FILENO; EClose STDOUT_FILENO; EClose STDERR_FILENO])).
Proof.
  intro Hr. pose proof (reachable_invariant e st Hr) as (Hs & Hl & Hx & Ho).
  destruct Hs as (_ & _ & _ & _ & _ & _ & _ & _ & _ & _ & Hfork & _).
  destruct Hl as (_ & Hres & _ & Hcalls & Hcfg & _).
  destruct Ho as (_ & _ & _ & _ & Hord).
  assert (Hflag : has is_fork (trace st) = true ->
                  executed L126 st = true /\ daemonize_flag (config st) = true).
  { rewrite Hfork. intro H. apply andb_prop in H. exact H. }
  split; [|split].
  - rewrite Hfork. destruct (executed L126 st) eqn:Hex; [|reflexivity].
    unfold loaded in Hcfg. rewrite Hcfg; [reflexivity|].
    apply (executed_past_load L126 (pc st) (proc st)); [simpl; lia | exact Hex].
  - intro H. apply Hflag in H as [_ Hd]. rewrite Hd in Hord.
    apply precedesb_precedes. exact Hord.
  - intro H. apply Hflag in H as [Hex Hd].
    unfold executed in Hex. apply orb_prop in Hex as [Hpast | Hat].
    + right; right; right.
      destruct (Hres Hpast Hd) as [Hf0 Hs0].
      repeat split; auto.
    + apply andb_prop in Hat as [Hat Hexit].
      assert (Hpc : pc st = L126)
        by (destruct (pc st); try discriminate Hat; reflexivity).
      unfold exit_status in Hx.
      destruct (proc st) as [|c|sig]; try discriminate Hexit.
      rewrite Hpc in Hx.
      destruct Hx as (_ & [[-> Hpos] | (-> & [Hneg | [H0 Hneg]] & Herr)]).
      * right; left. auto.
      * left. auto.
      * right; right; left. auto.
Qed.

Lemma daemonize_iff_flag_witness :
  let e := env_daemon in
  let st := main env_daemon in
  (fork_result e < 0 /\ proc st = Exited 1
   /\ has is_error_log (trace st) = true)
  \/ (fork_result e > 0 /\ proc st = Exited 0)
  \/ (fork_result e = 0 /\ setsid_result e < 0 /\ proc st = Exited 1
      /\ has is_error_log (trace st) = true)
  \/ (fork_result e = 0 /\ 0 <= setsid_result e
      /\ past L126 (pc st) = true
      /\ filter is_daemon_call (trace st)
         = [EFork 0; EUmask 0; ESetsid (setsid_result e);
            EClose STDIN_FILENO; EClose STDOUT_FILENO; EClose STDERR_FILENO]).
Proof.
  refine (proj2 (proj2 (daemonize_iff_flag env_daemon (main env_daemon)
                          (main_reachable env_daemon))) _).
  vm_compute. reflexivity.
Defined.

(** ** Logging flags (C7) *)

Lemma load_ok_then_flags e st path r :
  reachable e st -> In (EConfigLoad path r) (trace st) -> IsOK r = true ->
  has is_flag (trace (act e MainStep (act e MainStep st))) = true.
Proof.
  intros Hr Hin Hok.
  pose proof (reachable_invariant e st Hr) as (Hs & Hl & Hx & _).
  assert (Hload : has is_config_load (trace st) = true)
    by (eapply In_has; [exact Hin | reflexivity]).
  destruct Hs as (_ & _ & _ & _ & _ & _ & _ & _ & Hcl & Hfl & _).
  destruct Hl as (_ & _ & _ & _ & _ & Hs0 & _ & _ & _ & Hf & _).
  rewrite Hload in Hcl. symmetry in Hcl.
  destruct (past L124 (pc st)) eqn:H124.
  - do 2 apply act_keeps_has. exact Hfl.
  - assert (Hk : forall sig, proc st <> Killed sig).
    { intro sig. apply (installed_not_killed e); [exact Hr|].
      destruct (pc st); try discriminate Hcl; reflexivity. }
    rewrite Hcl in Hf.
    pose proof (In_filter_singleton _ _ _ _ Hf Hin eq_refl) as Heq.
    injection Heq as Hpath Hr0.
    assert (H135 : past L135 (pc st) = false)
      by (destruct (pc st); try discriminate H124; reflexivity).
    specialize (Hs0 Hcl H135).
    unfold exit_status in Hx.
    destruct st as [pc0 p tbl hup o pth cfg s0 kc tr]; simpl in *.
    destruct p as [|c|sig]; [| |exfalso; exact (Hk sig eq_refl)].
    + destruct pc0; try discriminate Hcl; try discriminate H124.
      * unfold act at 2; simpl. unfold main_step at 1; simpl.
        rewrite Hs0, <- Hr0, Hok. simpl.
        unfold act; simpl. unfold main_step, call; simpl.
        rewrite has_app. apply orb_true_r.
      * apply act_keeps_has.
        unfold act; simpl. unfold main_step, call; simpl.
        rewrite has_app. apply orb_true_r.
    + destruct pc0; try discriminate Hcl; try discriminate H124;
        try contradiction.
      destruct Hx as (_ & Hbad & _). congruence.
Qed.

(** C7.  Once the configuration has loaded successfully, the next two
    statements of [main] have set the glog flags; whenever they are set,
    the load had succeeded, [FLAGS_minloglevel] is the configuration's
    [loglevel] and [FLAGS_log_dir] its [dir] (with [FLAGS_max_log_size]
    100 and [FLAGS_logbufsecs] 0), and they are set once.  The flags are
    set after [Config::Load] and before any call of [daemonize] and before
    the engine is constructed or opened. *)
Theorem log_flags_from_config (e : env) (st : state) :
  reachable e st ->
  (forall path r, In (EConfigLoad path r) (trace st) -> IsOK r = true ->
     has is_flag (trace (exec e [MainStep; MainStep] st)) = true)
  /\ (has is_flag (trace st) = true ->
      let loaded_config := config_load e (config_file_path st) in
      IsOK (fst loaded_config) = true
      /\ filter is_flag (trace st)
         = [EFlag (FLAGS_minloglevel (loglevel (snd loaded_config)));
            EFlag (FLAGS_max_log_size 100);
            EFlag (FLAGS_logbufsecs 0);
            EFlag (FLAGS_log_dir (dir (snd loaded_config)))])
  /\ precedes is_config_load is_flag (trace st)
  /\ precedes is_flag is_daemon_or_storage (trace st).
Proof.
  intro Hr. pose proof (reachable_invariant e st Hr) as (Hs & Hl & _ & Ho).
  split; [|split; [|split]].
  - intros path r. apply load_ok_then_flags. exact Hr.
  - destruct Hs as (_ & _ & _ & _ & _ & _ & _ & _ & _ & Hfl & _).
    destruct Hl as (_ & _ & _ & _ & Hcfg & _ & Hok & _ & _ & _ & Hf & _).
    rewrite Hfl. intro H124. unfold loaded in *. simpl.
    rewrite Hf, H124.
    assert (H120 : past L120 (pc st) = true)
      by (destruct (pc st); try discriminate H124; reflexivity).
    assert (H119 : past L119 (pc st) = true)
      by (destruct (pc st); try discriminate H124; reflexivity).
    rewrite <- (Hcfg H119). split; [exact (Hok H120) | reflexivity].
  - apply precedesb_precedes. apply Ho.
  - apply precedesb_precedes. apply Ho.
Qed.

Lemma log_flags_from_config_witness :
  filter is_flag (trace (main sample_env))
  = [EFlag (FLAGS_minloglevel 1); EFlag (FLAGS_max_log_size 100);
     EFlag (FLAGS_logbufsecs 0); EFlag (FLAGS_log_dir "/var/log/k2r")].
Proof.
  refine (proj2 (proj1 (proj2 (log_flags_from_config sample_env (main sample_env)
                          (main_reachable sample_env))) _)).
  vm_compute. reflexivity.
Defined.

(** ** Resuming from the checkpoint (C1) *)

Section PipelineFacts.

Variables RawRecord LogicalOperation : Type.
Variable Decode : RawWriteBatch RawRecord -> decoded LogicalOperation.
Variable policy : decode_policy.

Implicit Types (b : RawWriteBatch RawRecord) (l log : list (RawWriteBatch RawRecord)).
Implicit Types (st : bridge RawRecord LogicalOperation).
Implicit Types (sent acked : list (SequenceNumber * LogicalOperation)).

Lemma after_all_above (t : SequenceNumber) l :
  Forall (fun b => (t < sequence b)%N) l ->
  filter (fun b => (t <? sequence b)%N) l = l.
Proof.
  induction 1 as [|b l Hb _ IH]; simpl; [reflexivity|].
  apply N.ltb_lt in Hb. rewrite Hb, IH. reflexivity.
Qed.

Lemma after_above (t : SequenceNumber) l :
  Forall (fun b => (t < sequence b)%N) (filter (fun b => (t <? sequence b)%N) l).
Proof.
  apply Forall_forall. intros b Hb. apply filter_In in Hb as [_ Hb].
  apply N.ltb_lt. exact Hb.
Qed.

Lemma increasing_after (t : SequenceNumber) l :
  increasing l -> increasing (filter (fun b => (t <? sequence b)%N) l).
Proof.
  induction l as [|x l IH]; simpl; [trivial|].
  intros [Hx Hl]. destruct (t <? sequence x)%N; [|auto].
  simpl. split; [|auto].
  apply Forall_forall. intros b Hb. apply filter_In in Hb as [Hb _].
  rewrite Forall_forall in Hx. auto.
Qed.

(** In an increasing log, the batches after the head of a cursor are the
    rest of that cursor. *)
Lemma after_next (S : SequenceNumber) log b rest :
  increasing log ->
  filter (fun b' => (S <? sequence b')%N) log = b :: rest ->
  filter (fun b' => (sequence b <? sequence b')%N) log = rest.
Proof.
  induction log as [|x l IH]; simpl; [discriminate|].
  intros [Hx Hl] Heq. destruct (S <? sequence x)%N eqn:HS.
  - injection Heq as -> <-. rewrite N.ltb_irrefl.
    transitivity l; [|symmetry]; apply after_all_above; [exact Hx|].
    eapply Forall_impl; [|exact Hx]. simpl. intros a Ha.
    apply N.ltb_lt in HS. lia.
  - assert (Hb : In b l).
    { assert (H : In b (b :: rest)) by (left; reflexivity).
      rewrite <- Heq in H. apply filter_In in H. tauto. }
    rewrite Forall_forall in Hx. apply Hx in Hb.
    assert (Hlt : (sequence b <? sequence x)%N = false)
      by (apply N.ltb_ge; lia).
    rewrite Hlt. apply IH; assumption.
Qed.

Lemma from_succ_after (S : SequenceNumber) l :
  filter (fun b => (N.succ S <=? sequence b)%N) l
  = filter (fun b => (S <? sequence b)%N) l.
Proof.
  apply filter_ext. intro b.
  destruct (N.leb_spec (N.succ S) (sequence b)), (N.ltb_spec S (sequence b));
    try reflexivity; lia.
Qed.

Lemma increasing_app_left l more : increasing (l ++ more) -> increasing l.
Proof.
  induction l as [|x l IH]; simpl; [trivial|].
  intros [Hx Hl]. split; [|auto]. apply Forall_app in Hx. tauto.
Qed.

Lemma increasing_app_lt l more b b' :
  increasing (l ++ more) -> In b l -> In b' more ->
  (sequence b < sequence b')%N.
Proof.
  induction l as [|x l IH]; simpl; [contradiction|].
  intros [Hx Hl] [<- | Hb] Hb'; [|auto].
  rewrite Forall_forall in Hx. apply Hx. apply in_or_app. auto.
Qed.

Lemma delivered_ops_app (a c : list (SequenceNumber * LogicalOperation)) k :
  delivered_ops (a ++ c) k = delivered_ops a k ++ delivered_ops c k.
Proof. unfold delivered_ops. now rewrite filter_app, map_app. Qed.

Lemma delivered_ops_other k k' (op : LogicalOperation) sent :
  k <> k' -> delivered_ops (sent ++ [(k, op)]) k' = delivered_ops sent k'.
Proof.
  intro Hne. rewrite delivered_ops_app. unfold delivered_ops at 2. simpl.
  destruct (N.eqb_spec k k'); [contradiction|]. apply app_nil_r.
Qed.

Lemma delivered_ops_same k (op : LogicalOperation) sent :
  delivered_ops (sent ++ [(k, op)]) k = delivered_ops sent k ++ [op].
Proof.
  rewrite delivered_ops_app. unfold delivered_ops at 2. simpl.
  now rewrite N.eqb_refl.
Qed.

Lemma pump_target ok st :
  target (pump Decode policy ok st) = target st ++ pump_sends ok st.
Proof.
  unfold pump, pump_sends. destruct (halted st); [now rewrite app_nil_r|].
  destruct (in_flight st) as [[[b all] [|op ops]]|]; simpl.
  - now rewrite app_nil_r.
  - destruct ok; simpl; [reflexivity | now rewrite app_nil_r].
  - destruct (cursor st) as [|b rest]; simpl; [now rewrite app_nil_r|].
    destruct (emitted Decode policy b); simpl; now rewrite app_nil_r.
Qed.

Lemma consistent_pump log S0 sent ok st :
  increasing log -> consistent Decode policy log S0 sent st ->
  consistent Decode policy log S0 (sent ++ pump_sends ok st)
             (pump Decode policy ok st).
Proof.
  intros Hinc Hc. unfold pump, pump_sends.
  destruct (halted st); [rewrite app_nil_r; exact Hc|].
  destruct Hc as (Hcur & Hlo & Hck & Hat & Hdone & Hfresh & Hfly).
  assert (Hinc' := increasing_after (progress st) log Hinc).
  assert (Habove := after_above (progress st) log).
  unfold consistent, in_flight_batch in *.
  destruct (in_flight st) as [[[b all] [|op ops]]|] eqn:Hin; simpl in *.
  - (* the batch is applied; persist the checkpoint *)
    rewrite app_nil_r. rewrite Hcur in Hinc', Habove.
    destruct Hinc' as [Hb _]. rewrite Forall_forall in Hb.
    apply Forall_inv in Habove.
    assert (Hbin : In b log).
    { assert (H : In b (b :: cursor st)) by (left; reflexivity).
      rewrite <- Hcur in H. apply filter_In in H. tauto. }
    split; [apply (after_next (progress st)); assumption|].
    split; [destruct ok; lia|]. split; [destruct ok; lia|].
    split; [right; exists b; auto|].
    split; [|split; [exact Hfresh | discriminate]].
    intros b' Hb' Hlow Hhigh.
    destruct (N.le_gt_cases (sequence b') (progress st)) as [Hold | Hnew];
      [auto|].
    assert (Hopen : In b' (b :: cursor st)).
    { rewrite <- Hcur. apply filter_In. split; [exact Hb'|].
      apply N.ltb_lt. exact Hnew. }
    destruct Hopen as [<- | Hc]; [|apply Hb in Hc; lia].
    destruct (Hfly b all [] eq_refl) as (Hem & earlier & done & Hd & Hall).
    rewrite app_nil_r in Hall. subst done. exists earlier, all. auto.
  - rewrite Hcur in Hinc', Habove.
    destruct Hinc' as [Hb _]. rewrite Forall_forall in Hb.
    apply Forall_inv in Habove.
    destruct (Hfly b all (op :: ops) eq_refl) as (Hem & earlier & done & Hd & Hall).
    destruct ok; simpl.
    + (* one operation is acknowledged *)
      split; [exact Hcur|]. split; [exact Hlo|]. split; [exact Hck|].
      split; [exact Hat|]. split; [|split].
      * intros b' Hb' Hlow Hhigh. rewrite delivered_ops_other by lia. auto.
      * intros b' Hb'. pose proof (Hb b' Hb').
        rewrite delivered_ops_other by lia. auto.
      * intros b' all' rest Heq. injection Heq as <- <- <-.
        split; [exact Hem|]. exists earlier, (done ++ [op]).
        rewrite delivered_ops_same, Hd, Hall, <- !app_assoc. auto.
    + (* SendError: the whole batch is sent again *)
      rewrite app_nil_r.
      split; [exact Hcur|]. split; [exact Hlo|]. split; [exact Hck|].
      split; [exact Hat|]. split; [exact Hdone|]. split; [exact Hfresh|].
      intros b' all' rest Heq. injection Heq as <- <- <-.
      split; [exact Hem|]. exists (earlier ++ done), [].
      rewrite app_nil_r. auto.
  - rewrite app_nil_r.
    destruct (cursor st) as [|b rest] eqn:Hc; simpl.
    + (* nothing to pull *)
      rewrite Hin, Hc. simpl.
      split; [exact Hcur|]. split; [exact Hlo|]. split; [exact Hck|].
      split; [exact Hat|]. split; [exact Hdone|].
      split; [intros b' []|]. intros; discriminate.
    + destruct (emitted Decode policy b) as [ops|] eqn:Hem; simpl.
      * (* pull the next batch *)
        split; [exact Hcur|]. split; [exact Hlo|]. split; [exact Hck|].
        split; [exact Hat|]. split; [exact Hdone|].
        split; [intros b' Hb'; apply Hfresh; right; exact Hb'|].
        intros b' all' rest' Heq. injection Heq as <- <- <-.
        split; [exact Hem|]. exists [], [].
        rewrite (Hfresh b) by (left; reflexivity). auto.
      * (* halt on the decode error *)
        split; [exact Hcur|]. split; [exact Hlo|]. split; [exact Hck|].
        split; [exact Hat|]. split; [exact Hdone|].
        split; [exact Hfresh|]. intros; discriminate.
Qed.

Lemma consistent_run log S0 acked oks :
  increasing log ->
  forall sent st,
    consistent Decode policy log S0 sent st -> target st = acked ++ sent ->
    exists sent',
      target (run Decode policy oks st) = acked ++ sent'
      /\ consistent Decode policy log S0 sent' (run Decode policy oks st).
Proof.
  intro Hinc. unfold run.
  induction oks as [|ok oks IH]; intros sent st H0 Ht; simpl.
  - exists sent. auto.
  - apply (IH (sent ++ pump_sends ok st)).
    + apply consistent_pump; assumption.
    + rewrite pump_target, Ht, app_assoc. reflexivity.
Qed.

Lemma Start_consistent eng S0 acked st :
  Start eng S0 acked = Some st ->
  consistent Decode policy (history eng) S0 [] st /\ target st = acked ++ [].
Proof.
  unfold Start, Open.
  destruct (N.succ S0 <? oldest eng)%N; [discriminate|].
  intro H. injection H as <-. unfold consistent, in_flight_batch; simpl.
  rewrite app_nil_r.
  split; [|reflexivity].
  split; [symmetry; apply from_succ_after|].
  split; [lia|]. split; [lia|]. split; [left; reflexivity|].
  split; [intros; lia|]. split; [reflexivity|]. intros; discriminate.
Qed.

Lemma resumed_above_pump S sent ok st :
  resumed_above S sent st ->
  resumed_above S (sent ++ pump_sends ok st) (pump Decode policy ok st).
Proof.
  intros (Hsent & Hcur & Hfly).
  unfold pump, pump_sends, resumed_above, in_flight_batch in *.
  destruct (halted st); [rewrite app_nil_r; auto|].
  destruct (in_flight st) as [[[b all] [|op ops]]|] eqn:Hin; simpl in *.
  - rewrite app_nil_r. auto.
  - destruct ok; simpl; [|rewrite app_nil_r; auto].
    split; [|auto]. apply Forall_app. split; [exact Hsent|].
    constructor; [|constructor]. simpl. now apply Forall_inv in Hfly.
  - rewrite app_nil_r. destruct (cursor st) as [|b rest] eqn:Hc; simpl.
    + rewrite Hin, Hc. auto.
    + inversion Hcur; subst.
      destruct (emitted Decode policy b); simpl; auto.
Qed.

Lemma resumed_above_run S acked oks :
  forall sent st,
    resumed_above S sent st -> target st = acked ++ sent ->
    exists sent',
      target (run Decode policy oks st) = acked ++ sent'
      /\ Forall (fun d => (S < fst d)%N) sent'.
Proof.
  unfold run. induction oks as [|ok oks IH]; intros sent st H0 Ht; simpl.
  - exists sent. split; [exact Ht | apply H0].
  - apply (IH (sent ++ pump_sends ok st)).
    + apply resumed_above_pump; assumption.
    + rewrite pump_target, Ht, app_assoc. reflexivity.
Qed.

(** While no unit of work fails, the checkpoint keeps up with the progress. *)
Lemma no_failure_checkpoint oks st :
  Forall (fun ok => ok = true) oks -> progress st = checkpoint st ->
  progress (run Decode policy oks st) = checkpoint (run Decode policy oks st).
Proof.
  unfold run. intro Hoks. revert st.
  induction Hoks as [|ok oks -> _ IH]; intros st Heq; simpl; [exact Heq|].
  apply IH. unfold pump. destruct (halted st); [exact Heq|].
  destruct (in_flight st) as [[[b all] [|op ops]]|]; simpl; auto.
  destruct (cursor st) as [|b rest]; simpl; auto.
  destruct (emitted Decode policy b); simpl; auto.
Qed.

Lemma filter_none (f : RawWriteBatch RawRecord -> bool) l :
  Forall (fun b => f b = false) l -> filter f l = [].
Proof.
  induction 1 as [|b l Hb _ IH]; simpl; [reflexivity|]. now rewrite Hb.
Qed.

(** In an increasing list at most one batch has a given sequence number. *)
Lemma at_most_one_with_sequence k l :
  increasing l ->
  (List.length (filter (fun b => (k =? sequence b)%N) l) <= 1)%nat.
Proof.
  induction l as [|x l IH]; simpl; [lia|].
  intros [Hx Hl]. destruct (N.eqb_spec k (sequence x)) as [->|Hne]; [|auto].
  simpl. rewrite filter_none; [simpl; lia|].
  eapply Forall_impl; [|exact Hx]. simpl. intros b Hb.
  apply N.eqb_neq. lia.
Qed.

Lemma applied_after_progress st l :
  increasing l -> Forall (fun b => (progress st < sequence b)%N) l ->
  (List.length (filter (applied st) l) <= 1)%nat.
Proof.
  intros Hinc Habove.
  destruct (in_flight st) as [[[b0 all] [|op ops]]|] eqn:Hin.
  - rewrite (filter_ext_in (applied st) (fun b => (sequence b0 =? sequence b)%N)).
    + apply at_most_one_with_sequence. exact Hinc.
    + intros b Hb. rewrite Forall_forall in Habove. apply Habove in Hb.
      unfold applied. rewrite Hin.
      destruct (N.leb_spec (sequence b) (progress st)); [lia | reflexivity].
  - rewrite (filter_ext_in (applied st) (fun _ => false)).
    + rewrite filter_none; [simpl; lia|]. apply Forall_forall. auto.
    + intros b Hb. rewrite Forall_forall in Habove. apply Habove in Hb.
      unfold applied. rewrite Hin.
      destruct (N.leb_spec (sequence b) (progress st)); [lia | reflexivity].
  - rewrite (filter_ext_in (applied st) (fun _ => false)).
    + rewrite filter_none; [simpl; lia|]. apply Forall_forall. auto.
    + intros b Hb. rewrite Forall_forall in Habove. apply Habove in Hb.
      unfold applied. rewrite Hin.
      destruct (N.leb_spec (sequence b) (progress st)); [lia | reflexivity].
Qed.


End PipelineFacts.

Lemma sample_log_increasing :
  increasing (history sample_log ++ [mkBatch 13%N [5%nat]]).
Proof. simpl. repeat split; repeat constructor. Qed.



(** ** More invariants *)

Lemma wiring_main_step e st :
  locals e st -> wiring e st -> proc st = Running -> wiring e (main_step e st).
Proof.
  destruct st as [pc0 p tbl hup o path cfg s0 kc tr]; unfold locals, wiring; simpl.
  intros Hl H ->.
  unfold count in *.
  destruct pc0; run_main_step e; rewrite ?length_app; simpl.
  all: split_all; finish.
  all: unfold loaded, parsed_opts in *;
    repeat match goal with
           | H : config_load _ _ = _ |- _ => rewrite H in *
           | H : parseCommandLineOptions _ = _ |- _ => rewrite H in *
           end.
  all: simpl in *; finish.
Qed.

Lemma wiring_deliver e st sig b :
  wiring e st -> proc st = Running -> wiring e (deliver sig b st).
Proof.
  intros H Hp. deliver_cases st sig b; [ | exact H | ].
  - destruct st as [pc0 p tbl hup o path cfg s0 kc tr]; simpl in *; subst p.
    exact H.
  - destruct st as [pc0 p tbl hup o path cfg s0 kc tr]; unfold wiring in *;
      simpl in *.
    unfold count in *.
    destruct b; simpl; rewrite !filter_app, ?length_app; simpl;
      rewrite ?app_nil_r; split_all; try assumption; try lia.
Qed.

Lemma reachable_wiring e st : reachable e st -> wiring e st.
Proof.
  intro Hr.
  assert (H : reachable e st /\ wiring e st); [|apply H].
  revert st Hr. apply reachable_ind.
  - split; [apply reachable_init|].
    unfold wiring, count; simpl; crunch. split_all; try reflexivity; discriminate.
  - intros st [Hr Hw] Hp. split.
    + apply (reachable_act e MainStep) in Hr. unfold act in Hr.
      rewrite Hp in Hr. exact Hr.
    + apply wiring_main_step; auto. apply (reachable_invariant e st Hr).
  - intros st sig b [Hr Hw] Hp. split.
    + apply (reachable_act e (Deliver sig b)) in Hr. unfold act in Hr.
      rewrite Hp in Hr. exact Hr.
    + apply wiring_deliver; auto.
Qed.

(** ** The command line, option by option *)

Lemma parse_loop_continues (program : string) (rs : list (ascii * string))
    (o : Options) :
  forallb (fun r => continues (fst r)) rs = true ->
  parse_loop program rs o
  = ([], Normal (mkOptions (last_optarg "c" rs (conf_file o))
                           (last_optarg "p" rs (pid_file o))
                           (show_usage o
                            || existsb (fun r => Ascii.eqb (fst r) "h") rs))).
Proof.
  unfold last_optarg.
  revert o. induction rs as [|[ch optarg] rs IH]; intros o Hall; simpl.
  - destruct o; simpl. rewrite orb_false_r. reflexivity.
  - simpl in Hall. apply andb_prop in Hall as [Hch Hall].
    unfold continues in Hch.
    destruct (Ascii.eqb_spec ch "c") as [->|Hc];
      [rewrite (IH _ Hall); reflexivity|].
    destruct (Ascii.eqb_spec ch "p") as [->|Hp];
      [rewrite (IH _ Hall); reflexivity|].
    destruct (Ascii.eqb_spec ch "h") as [->|Hh]; [|discriminate Hch].
    rewrite (IH _ Hall). simpl. rewrite orb_true_r. reflexivity.
Qed.

Lemma parse_loop_normal (program : string) (rs : list (ascii * string))
    (o : Options) evs o' :
  parse_loop program rs o = (evs, Normal o') ->
  forallb (fun r => continues (fst r)) rs = true.
Proof.
  revert o. induction rs as [|[ch optarg] rs IH]; intro o; simpl;
    [reflexivity|].
  unfold continues.
  destruct (Ascii.eqb ch "c"); [apply IH|].
  destruct (Ascii.eqb ch "p"); [apply IH|].
  destruct (Ascii.eqb ch "h"); [apply IH|].
  destruct (Ascii.eqb ch "v"); discriminate.
Qed.

(** After options that are all [c], [p] or [h] the loop goes on with the
    options that follow. *)
Lemma parse_loop_skip (program : string) (before rest : list (ascii * string))
    (o : Options) :
  forallb (fun r => continues (fst r)) before = true ->
  exists o', parse_loop program (before ++ rest) o = parse_loop program rest o'.
Proof.
  revert o. induction before as [|[ch optarg] before IH]; intros o Hall; simpl.
  - exists o. reflexivity.
  - simpl in Hall. apply andb_prop in Hall as [Hch Hall].
    unfold continues in Hch.
    destruct (Ascii.eqb ch "c"); [apply IH; exact Hall|].
    destruct (Ascii.eqb ch "p"); [apply IH; exact Hall|].
    destruct (Ascii.eqb ch "h"); [apply IH; exact Hall|].
    discriminate Hch.
Qed.

Lemma parse_loop_at_v (program : string) (optarg : string)
    (after : list (ascii * string)) (o : Options) :
  parse_loop program (("v"%char, optarg) :: after) o = ([], Exits 0).
Proof. reflexivity. Qed.

(** X1.  [parseCommandLineOptions] returns exactly when getopt answers only
    [c], [p] and [h]; it then prints nothing, the configuration file is the
    argument of the last [-c] (the default path if there is none), the pid
    file the argument of the last [-p], and the usage flag is set exactly
    when some [-h] was given. *)
Theorem parse_loop_returns (program : string) (rs : list (ascii * string))
    (o : Options) :
  (forallb (fun r => continues (fst r)) rs = true ->
   parse_loop program rs o
   = ([], Normal (mkOptions (last_optarg "c" rs (conf_file o))
                            (last_optarg "p" rs (pid_file o))
                            (show_usage o
                             || existsb (fun r => Ascii.eqb (fst r) "h") rs))))
  /\ (forall evs o', parse_loop program rs o = (evs, Normal o') ->
                     forallb (fun r => continues (fst r)) rs = true).
Proof.
  split.
  - apply parse_loop_continues.
  - intros evs o'. apply parse_loop_normal.
Qed.

Lemma parse_loop_returns_witness :
  parse_loop "k2r" [("c"%char, "a.conf"); ("h"%char, ""); ("c"%char, "b.conf")]
             Options_default
  = ([], Normal (mkOptions "b.conf" kDefaultPidPath true)).
Proof.
  exact (proj1 (parse_loop_returns "k2r"
                  [("c"%char, "a.conf"); ("h"%char, ""); ("c"%char, "b.conf")]
                  Options_default) eq_refl).
Defined.

(** X2.  The first answer of getopt outside [c], [p], [h] ends the program with
    exit code 0, whatever options came before and whatever follow: [-v]
    silently, any other answer after printing the usage text. *)
Theorem parse_loop_stops (program : string) (before after : list (ascii * string))
    (ch : ascii) (optarg : string) (o : Options) :
  forallb (fun r => continues (fst r)) before = true ->
  continues ch = false ->
  parse_loop program (before ++ (ch, optarg) :: after) o
  = (if Ascii.eqb ch "v" then [] else [ECout (usage_text program)], Exits 0).
Proof.
  intros Hall Hch.
  destruct (parse_loop_skip program before ((ch, optarg) :: after) o Hall)
    as [o' ->].
  simpl. unfold continues in Hch.
  apply orb_false_elim in Hch as [Hch Hh].
  apply orb_false_elim in Hch as [Hc Hp].
  rewrite Hc, Hp, Hh. destruct (Ascii.eqb ch "v"); reflexivity.
Qed.

Lemma parse_loop_stops_witness :
  parse_loop "k2r" ([("p"%char, "x.pid")] ++ ("v"%char, "") :: [("x"%char, "")])
             Options_default
  = ([], Exits 0).
Proof.
  exact (parse_loop_stops "k2r" [("p"%char, "x.pid")] [("x"%char, "")]
           "v" "" Options_default eq_refl eq_refl).
Defined.

(** ** Whole runs of [main] without signals *)

Lemma exec_repeat_step e n st st' :
  act e MainStep st = st' ->
  exec e (repeat MainStep (S n)) st = exec e (repeat MainStep n) st'.
Proof. intros <-. reflexivity. Qed.

Ltac main_steps_with tac :=
  repeat (erewrite exec_repeat_step;
          [| unfold act, main_step, call, initGoogleLog; simpl; tac; simpl;
             reflexivity ]).

Lemma exec_exited e sched st c : proc st = Exited c -> exec e sched st = st.
Proof. intro H. apply exec_halted. rewrite H. discriminate. Qed.

(** X3.  With [-v] as the first option other than [-c], [-p], [-h], the program
    prints the version line, which it prints before it looks at any option,
    and exits with code 0 having done nothing else. *)
Theorem version_option_run (e : env) (before after : list (ascii * string))
    (optarg : string) :
  getopt_results e = before ++ ("v"%char, optarg) :: after ->
  forallb (fun r => continues (fst r)) before = true ->
  proc (main e) = Exited 0 /\ trace (main e) = banner e.
Proof.
  intros Hopts Hall.
  assert (Hparse : parseCommandLineOptions e = ([], Exits 0)).
  { unfold parseCommandLineOptions. rewrite Hopts.
    destruct (parse_loop_skip (argv0 e) before (("v"%char, optarg) :: after)
                Options_default Hall) as [o' ->].
    apply parse_loop_at_v. }
  unfold main.
  main_steps_with ltac:(rewrite ?Hparse).
  rewrite (exec_exited e _ _ 0) by reflexivity. simpl.
  split; reflexivity.
Qed.

(** X4.  With [-h] among options that are all [-c], [-p] or [-h], [main] prints
    the usage text after the version line and exits with code 0; in no
    execution is the configuration loaded or any other exit code produced. *)
Theorem help_option_run (e : env) :
  forallb (fun r => continues (fst r)) (getopt_results e) = true ->
  existsb (fun r => Ascii.eqb (fst r) "h") (getopt_results e) = true ->
  proc (main e) = Exited 0
  /\ trace (main e) = banner e ++ [ECout (usage_text (argv0 e))]
  /\ (forall st, reachable e st ->
        has is_config_load (trace st) = false
        /\ forall c, proc st = Exited c -> c = 0).
Proof.
  intros Hall Hh.
  pose proof (parse_loop_continues (argv0 e) (getopt_results e)
                Options_default Hall) as Hparse.
  fold (parseCommandLineOptions e) in Hparse. rewrite Hh in Hparse.
  split; [|split].
  - unfold main. main_steps_with ltac:(rewrite ?Hparse). reflexivity.
  - unfold main. main_steps_with ltac:(rewrite ?Hparse). reflexivity.
  - intros st Hr.
    pose proof (reachable_invariant e st Hr) as (Hs & _ & Hx & _).
    pose proof (reachable_wiring e st Hr) as (_ & _ & Hu & Hu' & _).
    unfold parsed_opts in Hu. rewrite Hparse in Hu. simpl in Hu.
    assert (H115 : past L115 (pc st) = false).
    { destruct (past L115 (pc st)) eqn:H; [|reflexivity].
      assert (H114 : past L114 (pc st) = true)
        by (destruct (pc st); try discriminate H; reflexivity).
      specialize (Hu H114). specialize (Hu' eq_refl). congruence. }
    destruct Hs as (_ & _ & _ & _ & _ & _ & _ & _ & Hcl & _).
    split.
    + rewrite Hcl. destruct (pc st); try discriminate H115; reflexivity.
    + intros c Hc. unfold exit_status in Hx. rewrite Hc in Hx.
      destruct (pc st); try discriminate H115; try contradiction; exact Hx.
Qed.

Lemma help_option_run_witness :
  proc (main (mkEnv "k2r" [("h"%char, "")] "1" "c" sample_config
                    (fun _ => (Status_OK, sample_config)) (mkConfig "" "" "" 0)
                    0 "" 0 "" Status_OK))
  = Exited 0.
Proof.
  exact (proj1 (help_option_run
                  (mkEnv "k2r" [("h"%char, "")] "1" "c" sample_config
                         (fun _ => (Status_OK, sample_config)) (mkConfig "" "" "" 0)
                         0 "" 0 "" Status_OK) eq_refl eq_refl)).
Defined.

(** X5.  The run in the foreground when nothing fails: the options are all
    [-c] or [-p], the configuration loads with [daemonize] off and the
    engine opens.  [main] then makes exactly these calls in this order,
    the engine being configured from the loaded configuration, and, once
    [sync.Start()] returns, exits with code 0. *)
Theorem foreground_run (e : env) (r : Status) (cfg : Kvrocks2redisConfig) :
  let conf := last_optarg "c" (getopt_results e) kDefaultConfPath in
  forallb (fun r => continues (fst r)) (getopt_results e) = true ->
  existsb (fun r => Ascii.eqb (fst r) "h") (getopt_results e) = false ->
  config_load e conf = (r, cfg) ->
  IsOK r = true ->
  daemonize_flag cfg = false ->
  IsOK (OpenForReadOnly_result e) = true ->
  proc (main e) = Exited 0
  /\ trace (main e)
     = banner e
       ++ [EConfigLoad conf r;
           EFlag (FLAGS_minloglevel (loglevel cfg));
           EFlag (FLAGS_max_log_size 100);
           EFlag (FLAGS_logbufsecs 0);
           EFlag (FLAGS_log_dir (dir cfg));
           ENewStorage (engine_config cfg);
           EStorageOpen ReadOnly (OpenForReadOnly_result e);
           ENewRedisWriter cfg; ENewParser; ENewSync; ESyncStart].
Proof.
  intros conf Hall Hh Hload Hok Hd Hopen.
  pose proof (parse_loop_continues (argv0 e) (getopt_results e)
                Options_default Hall) as Hparse.
  fold (parseCommandLineOptions e) in Hparse. rewrite Hh in Hparse.
  simpl in Hparse. fold conf in Hparse.
  unfold main.
  main_steps_with ltac:(rewrite ?Hparse, ?Hload, ?Hok, ?Hd, ?Hopen).
  split; reflexivity.
Qed.

Lemma foreground_run_witness :
  proc (main sample_env) = Exited 0.
Proof.
  exact (proj1 (foreground_run sample_env Status_OK sample_config
                  eq_refl eq_refl eq_refl eq_refl eq_refl eq_refl)).
Defined.

Lemma version_option_run_witness :
  trace (main (mkEnv "k2r" [("p"%char, "x.pid"); ("v"%char, ""); ("x"%char, "")]
                     "1" "c" sample_config
                     (fun _ => (Status_OK, sample_config)) (mkConfig "" "" "" 0)
                     0 "" 0 "" Status_OK))
  = banner (mkEnv "k2r" [("p"%char, "x.pid"); ("v"%char, ""); ("x"%char, "")]
                  "1" "c" sample_config
                  (fun _ => (Status_OK, sample_config)) (mkConfig "" "" "" 0)
                  0 "" 0 "" Status_OK).
Proof.
  exact (proj2 (version_option_run
                  (mkEnv "k2r" [("p"%char, "x.pid"); ("v"%char, ""); ("x"%char, "")]
                         "1" "c" sample_config
                         (fun _ => (Status_OK, sample_config)) (mkConfig "" "" "" 0)
                         0 "" 0 "" Status_OK)
                  [("p"%char, "x.pid")] [("x"%char, "")] "" eq_refl eq_refl)).
Defined.

(** X6.  The run of the daemonized child when nothing fails: as in the
    foreground, with [fork], [umask(0)], [setsid] and the closing of
    descriptors 0, 1 and 2 between the setting of the log flags and the
    construction of the engine. *)
Theorem daemon_child_run (e : env) (r : Status) (cfg : Kvrocks2redisConfig) :
  let conf := last_optarg "c" (getopt_results e) kDefaultConfPath in
  forallb (fun r => continues (fst r)) (getopt_results e) = true ->
  existsb (fun r => Ascii.eqb (fst r) "h") (getopt_results e) = false ->
  config_load e conf = (r, cfg) ->
  IsOK r = true ->
  daemonize_flag cfg = true ->
  fork_result e = 0 ->
  0 <= setsid_result e ->
  IsOK (OpenForReadOnly_result e) = true ->
  proc (main e) = Exited 0
  /\ trace (main e)
     = banner e
       ++ [EConfigLoad conf r;
           EFlag (FLAGS_minloglevel (loglevel cfg));
           EFlag (FLAGS_max_log_size 100);
           EFlag (FLAGS_logbufsecs 0);
           EFlag (FLAGS_log_dir (dir cfg));
           EFork 0; EUmask 0; ESetsid (setsid_result e);
           EClose STDIN_FILENO; EClose STDOUT_FILENO; EClose STDERR_FILENO;
           ENewStorage (engine_config cfg);
           EStorageOpen ReadOnly (OpenForReadOnly_result e);
           ENewRedisWriter cfg; ENewParser; ENewSync; ESyncStart].
Proof.
  intros conf Hall Hh Hload Hok Hd Hfork Hsid Hopen.
  pose proof (parse_loop_continues (argv0 e) (getopt_results e)
                Options_default Hall) as Hparse.
  fold (parseCommandLineOptions e) in Hparse. rewrite Hh in Hparse.
  simpl in Hparse. fold conf in Hparse.
  assert (Hs : (setsid_result e <? 0) = false) by (apply Z.ltb_ge; exact Hsid).
  unfold main.
  main_steps_with
    ltac:(unfold daemonize;
          rewrite ?Hparse, ?Hload, ?Hok, ?Hd, ?Hopen, ?Hfork, ?Hs).
  split; reflexivity.
Qed.

Lemma daemon_child_run_witness :
  proc (main env_daemon) = Exited 0.
Proof.
  assert (H : 0 <= setsid_result env_daemon) by discriminate.
  exact (proj1 (daemon_child_run env_daemon Status_OK
                  (mkK2RConfig 1 "/var/log/k2r" true "secret" "db" "/data/kvrocks" 4096)
                  eq_refl eq_refl eq_refl eq_refl eq_refl eq_refl H eq_refl)).
Defined.

(** X7.  When the configuration fails to load, [main] has done nothing but
    print the version line, try the load, and print the error: the log
    flags are not set, nothing is forked, the engine is not touched, and
    the exit code is 1. *)
Theorem config_failure_run (e : env) (r : Status) (cfg : Kvrocks2redisConfig) :
  let conf := last_optarg "c" (getopt_results e) kDefaultConfPath in
  forallb (fun r => continues (fst r)) (getopt_results e) = true ->
  existsb (fun r => Ascii.eqb (fst r) "h") (getopt_results e) = false ->
  config_load e conf = (r, cfg) ->
  IsOK r = false ->
  proc (main e) = Exited 1
  /\ trace (main e)
     = banner e
       ++ [EConfigLoad conf r;
           ECout ("Failed to load config, err: " +++ Msg r +++ nl)].
Proof.
  intros conf Hall Hh Hload Hbad.
  pose proof (parse_loop_continues (argv0 e) (getopt_results e)
                Options_default Hall) as Hparse.
  fold (parseCommandLineOptions e) in Hparse. rewrite Hh in Hparse.
  simpl in Hparse. fold conf in Hparse.
  unfold main.
  main_steps_with ltac:(rewrite ?Hparse, ?Hload, ?Hbad).
  split; reflexivity.
Qed.

Lemma config_failure_run_witness :
  proc (main env_config_missing) = Exited 1.
Proof.
  exact (proj1 (config_failure_run env_config_missing
                  (mkStatus NotOK "no such file")
                  (mkK2RConfig 0 "" false "" "" "" 0)
                  eq_refl eq_refl eq_refl eq_refl)).
Defined.

(** X8.  When the engine cannot be opened in the foreground run, [main] ends
    with code 1 right after logging the error: the writer, the parser and
    the orchestrator are never constructed. *)
Theorem open_failure_run (e : env) (r : Status) (cfg : Kvrocks2redisConfig) :
  let conf := last_optarg "c" (getopt_results e) kDefaultConfPath in
  forallb (fun r => continues (fst r)) (getopt_results e) = true ->
  existsb (fun r => Ascii.eqb (fst r) "h") (getopt_results e) = false ->
  config_load e conf = (r, cfg) ->
  IsOK r = true ->
  daemonize_flag cfg = false ->
  IsOK (OpenForReadOnly_result e) = false ->
  proc (main e) = Exited 1
  /\ trace (main e)
     = banner e
       ++ [EConfigLoad conf r;
           EFlag (FLAGS_minloglevel (loglevel cfg));
           EFlag (FLAGS_max_log_size 100);
           EFlag (FLAGS_logbufsecs 0);
           EFlag (FLAGS_log_dir (dir cfg));
           ENewStorage (engine_config cfg);
           EStorageOpen ReadOnly (OpenForReadOnly_result e);
           ELog ERROR ("Failed to open: " +++ Msg (OpenForReadOnly_result e))].
Proof.
  intros conf Hall Hh Hload Hok Hd Hopen.
  pose proof (parse_loop_continues (argv0 e) (getopt_results e)
                Options_default Hall) as Hparse.
  fold (parseCommandLineOptions e) in Hparse. rewrite Hh in Hparse.
  simpl in Hparse. fold conf in Hparse.
  unfold main.
  main_steps_with ltac:(rewrite ?Hparse, ?Hload, ?Hok, ?Hd, ?Hopen).
  split; reflexivity.
Qed.

Lemma open_failure_run_witness :
  proc (main (mkEnv "k2r" [] "1" "c" sample_config
                    (fun _ => (Status_OK, sample_config)) (mkConfig "" "" "" 0)
                    0 "" 0 "" (mkStatus NotOK "IO error: lock")))
  = Exited 1.
Proof.
  exact (proj1 (open_failure_run
                  (mkEnv "k2r" [] "1" "c" sample_config
                         (fun _ => (Status_OK, sample_config)) (mkConfig "" "" "" 0)
                         0 "" 0 "" (mkStatus NotOK "IO error: lock"))
                  Status_OK sample_config
                  eq_refl eq_refl eq_refl eq_refl eq_refl eq_refl)).
Defined.

(** ** What the calls of [main] carry *)

Lemma parsed_opts_conf_file e path :
  option_map conf_file (parsed_opts e) = Some path ->
  path = last_optarg "c" (getopt_results e) kDefaultConfPath.
Proof.
  unfold parsed_opts.
  destruct (parseCommandLineOptions e) as [evs [o|c]] eqn:Hparse; simpl;
    [|discriminate].
  intro H. injection H as <-.
  pose proof (parse_loop_normal (argv0 e) (getopt_results e)
                Options_default evs o Hparse) as Hall.
  pose proof (parse_loop_continues (argv0 e) (getopt_results e)
                Options_default Hall) as Hret.
  unfold parseCommandLineOptions in Hparse. rewrite Hparse in Hret.
  injection Hret as _ ->. reflexivity.
Qed.

(** X9.  The configuration is loaded at most once, from the argument of
    the last [-c] option or from the default path ["../kvrocks2redis.conf"]
    if none was given; and the status [s] that [main] tests after the load
    (it holds it until the engine is opened) is the one that load returned. *)
Theorem config_loaded_from_option (e : env) (st : state) (path : string)
    (r : Status) :
  reachable e st -> In (EConfigLoad path r) (trace st) ->
  path = last_optarg "c" (getopt_results e) kDefaultConfPath
  /\ r = fst (config_load e path)
  /\ count is_config_load (trace st) = 1%nat
  /\ (past L135 (pc st) = false -> s st = r).
Proof.
  intros Hr Hin.
  pose proof (reachable_invariant e st Hr) as (Hs & Hl & _).
  pose proof (reachable_wiring e st Hr) as (_ & Hpath & _).
  assert (Hload : has is_config_load (trace st) = true)
    by (eapply In_has; [exact Hin | reflexivity]).
  destruct Hs as (_ & _ & _ & _ & _ & _ & _ & _ & Hcl & _).
  destruct Hl as (_ & _ & _ & _ & _ & Hs0 & _ & _ & _ & Hf & _).
  rewrite Hload in Hcl. symmetry in Hcl. rewrite Hcl in Hf.
  pose proof (In_filter_singleton _ _ _ _ Hf Hin eq_refl) as Heq.
  injection Heq as -> ->.
  assert (H116 : past L116 (pc st) = true)
    by (destruct (pc st); try discriminate Hcl; reflexivity).
  split; [apply parsed_opts_conf_file; auto|].
  split; [reflexivity|].
  split; [unfold count; rewrite Hf; reflexivity|].
  intro H135. apply (Hs0 Hcl H135).
Qed.

Lemma config_loaded_from_option_witness :
  let st := exec sample_env (repeat MainStep 12) (init sample_env) in
  "k2r.conf" = last_optarg "c" (getopt_results sample_env) kDefaultConfPath
  /\ Status_OK = fst (config_load sample_env "k2r.conf")
  /\ count is_config_load (trace st) = 1%nat
  /\ (past L135 (pc st) = false -> s st = Status_OK).
Proof.
  intro st.
  assert (Hr : reachable sample_env st) by (eexists; reflexivity).
  refine (config_loaded_from_option sample_env st "k2r.conf" Status_OK Hr _).
  vm_compute. do 7 right. left. reflexivity.
Defined.

(** X10.  The engine is constructed only after the configuration has loaded
    successfully, and with the password, database name, database directory
    and [max_open_files] of the loaded configuration. *)
Theorem engine_configured_from_config (e : env) (st : state) (k : Config) :
  reachable e st -> In (ENewStorage k) (trace st) ->
  let loaded_config := config_load e (config_file_path st) in
  IsOK (fst loaded_config) = true
  /\ k = engine_config (snd loaded_config).
Proof.
  intros Hr Hin.
  pose proof (reachable_invariant e st Hr) as (Hs & Hl & _).
  pose proof (reachable_wiring e st Hr)
    as (_ & _ & _ & _ & Hk1 & Hk2 & Hk3 & Hk4 & _).
  assert (Hst : has is_storage (trace st) = true)
    by (eapply In_has; [exact Hin | reflexivity]).
  assert (Hin' : In (ENewStorage k) (filter is_storage (trace st)))
    by (apply filter_In; auto).
  destruct Hs as (_ & _ & _ & _ & _ & _ & _ & _ & _ & _ & _ & _ & H134 & _).
  destruct Hl as (_ & _ & _ & _ & Hcfg & _ & Hok & _ & _ & _ & _ & Hf).
  rewrite Hst in H134. symmetry in H134. unfold loaded in *.
  assert (Hpast : past L120 (pc st) = true /\ past L119 (pc st) = true
                  /\ past L129 (pc st) = true /\ past L130 (pc st) = true
                  /\ past L131 (pc st) = true /\ past L132 (pc st) = true)
    by (destruct (pc st); try discriminate H134; repeat split).
  destruct Hpast as (H120 & H119 & H129 & H130 & H131 & H132).
  simpl. split; [auto|].
  rewrite <- (Hcfg H119).
  assert (Hk : k = kvrocks_config st).
  { rewrite Hf in Hin'.
    destruct (past L135 (pc st));
      [destruct Hin' as [H|[H|[]]] | rewrite H134 in Hin';
                                     destruct Hin' as [H|[]]];
      try discriminate H; injection H as <-; reflexivity. }
  rewrite Hk. unfold engine_config.
  rewrite <- (Hk1 H129), <- (Hk2 H130), <- (Hk3 H131), <- (Hk4 H132).
  destruct (kvrocks_config st); reflexivity.
Qed.

Lemma engine_configured_from_config_witness :
  IsOK (fst (config_load sample_env (config_file_path (main sample_env)))) = true
  /\ mkConfig "secret" "db" "/data/kvrocks" 4096
     = engine_config
         (snd (config_load sample_env (config_file_path (main sample_env)))).
Proof.
  refine (engine_configured_from_config sample_env (main sample_env)
            (mkConfig "secret" "db" "/data/kvrocks" 4096)
            (main_reachable sample_env) _).
  vm_compute. do 12 right. left. reflexivity.
Defined.

(** X11.  The pipeline components are constructed only after the engine has
    opened successfully, once each and in the order writer, parser,
    orchestrator, and [Start()] is called once, after all three; the writer
    receives the loaded configuration. *)
Theorem components_in_order (e : env) (st : state) :
  reachable e st ->
  let wired := [ENewRedisWriter (snd (config_load e (config_file_path st)));
                ENewParser; ENewSync; ESyncStart] in
  (exists n, filter is_component (trace st) = firstn n wired)
  /\ (has is_sync_start (trace st) = true ->
      filter is_component (trace st) = wired)
  /\ (has is_component (trace st) = true ->
      IsOK (OpenForReadOnly_result e) = true
      /\ In (EStorageOpen ReadOnly (OpenForReadOnly_result e)) (trace st)).
Proof.
  intros Hr wired.
  pose proof (reachable_invariant e st Hr) as (Hs & Hl & _).
  pose proof (reachable_wiring e st Hr)
    as (_ & _ & _ & _ & _ & _ & _ & _ & Hc & _).
  destruct Hs as (_ & _ & _ & _ & _ & _ & _ & _ & _ & _ & _ & _ & _ & _ & Hcomp & _ & Hstart).
  destruct Hl as (_ & _ & _ & _ & Hcfg & _ & _ & _ & Hok & _ & _ & Hf).
  unfold loaded in *. subst wired.
  split; [|split].
  - rewrite Hc.
    destruct (past L141 (pc st)) eqn:H141;
      [|exists 0%nat; destruct (pc st); try discriminate H141; reflexivity].
    rewrite <- Hcfg
      by (destruct (pc st); try discriminate H141; reflexivity).
    destruct (past L152 (pc st)); [exists 4%nat; reflexivity|].
    destruct (past L144 (pc st)); [exists 3%nat; reflexivity|].
    destruct (past L142 (pc st)); [exists 2%nat; reflexivity|].
    exists 1%nat; reflexivity.
  - rewrite Hstart, Hc. intro H152. rewrite H152.
    rewrite <- Hcfg; [reflexivity|].
    destruct (pc st); try discriminate H152; reflexivity.
  - rewrite Hcomp. intro H141.
    assert (H136 : past L136 (pc st) = true /\ past L135 (pc st) = true)
      by (destruct (pc st); try discriminate H141; split; reflexivity).
    destruct H136 as [H136 H135]. split; [auto|].
    assert (Hin : In (EStorageOpen ReadOnly (OpenForReadOnly_result e))
                     (filter is_storage (trace st)))
      by (rewrite Hf, H135; right; left; reflexivity).
    apply filter_In in Hin. tauto.
Qed.

Lemma components_in_order_witness :
  filter is_component (trace (main sample_env))
  = [ENewRedisWriter
       (snd (config_load sample_env (config_file_path (main sample_env))));
     ENewParser; ENewSync; ESyncStart].
Proof.
  refine (proj1 (proj2 (components_in_order sample_env (main sample_env)
                          (main_reachable sample_env))) _).
  vm_compute. reflexivity.
Defined.

(** ** More on shutdown and exit *)

(** X12.  [Stop()] is called once for each [IsStopped()] query that answered
    "not stopped" and never otherwise; each such call comes with one
    "Bye Bye" log entry and one removal of the pid file; and the closure
    makes no call before the orchestrator is constructed. *)
Theorem stop_once_per_running_query (e : env) (st : state) :
  reachable e st ->
  count is_sync_stop (trace st) = count is_not_stopped_answer (trace st)
  /\ count is_remove (trace st) = count is_sync_stop (trace st)
  /\ count is_bye (trace st) = count is_sync_stop (trace st)
  /\ (has is_shutdown (trace st) = true -> has is_new_sync (trace st) = true).
Proof.
  intro Hr.
  pose proof (reachable_wiring e st Hr)
    as (_ & _ & _ & _ & _ & _ & _ & _ & _ & H1 & H2 & H3).
  pose proof (reachable_invariant e st Hr) as (Hs & _).
  destruct Hs as (_ & _ & _ & _ & Hsh & _ & _ & _ & _ & _ & _ & _ & _ & _ & _ & Hn & _).
  repeat split; try congruence.
  intro H. rewrite Hn.
  destruct (past L145 (pc st)) eqn:H145;
    [destruct (pc st); try discriminate H145; reflexivity|].
  rewrite (Hsh eq_refl) in H. discriminate H.
Qed.

Lemma stop_once_per_running_query_witness :
  let st := exec sample_env
              (repeat MainStep 28
               ++ [Deliver SIGINT false; Deliver SIGTERM true; Deliver SIGINT true])
              (init sample_env) in
  count is_sync_stop (trace st) = 1%nat /\ count is_remove (trace st) = 1%nat.
Proof.
  intro st.
  assert (Hr : reachable sample_env st) by (eexists; reflexivity).
  destruct (stop_once_per_running_query sample_env st Hr) as (H1 & H2 & _).
  rewrite H2, H1. vm_compute. split; reflexivity.
Defined.

(** X13.  Every exit has code 0 or 1.  An exit with code 1 comes before any
    pipeline component exists and after a diagnostic: an entry of the error
    log, or the line "Failed to load config" on standard output. *)
Theorem exit_one_has_diagnostic (e : env) (st : state) (c : Z) :
  reachable e st -> proc st = Exited c ->
  (c = 0 \/ c = 1)
  /\ (c = 1 ->
      has is_component (trace st) = false
      /\ (has is_error_log (trace st) = true
          \/ In (ECout ("Failed to load config, err: " +++ Msg (s st) +++ nl))
                (trace st))).
Proof.
  intros Hr Hp.
  pose proof (reachable_invariant e st Hr) as (Hs & _ & Hx & _).
  destruct Hs as (_ & _ & _ & _ & _ & _ & _ & _ & _ & _ & _ & _ & _ & _ & Hcomp & _).
  unfold exit_status in Hx. rewrite Hp in Hx. rewrite Hcomp.
  destruct (pc st); try contradiction; simpl.
  - subst c. split; [auto | discriminate].
  - subst c. split; [auto | discriminate].
  - destruct Hx as (-> & _ & Hin). split; [auto|]. intros _. split; auto.
  - destruct Hx as (_ & [[-> _] | (-> & _ & Herr)]).
    + split; [auto | discriminate].
    + split; [auto|]. intros _. split; auto.
  - destruct Hx as (-> & _ & Hin). split; [auto|]. intros _. split; [reflexivity|].
    left. eapply In_has; [exact Hin | reflexivity].
  - destruct Hx as (-> & _). split; [auto | discriminate].
Qed.

Lemma exit_one_has_diagnostic_witness :
  has is_component (trace (main env_config_missing)) = false.
Proof.
  refine (proj1 (proj2 (exit_one_has_diagnostic env_config_missing
                          (main env_config_missing) 1
                          (main_reachable env_config_missing) _) eq_refl)).
  vm_compute. reflexivity.
Defined.

(** X14.  From the third call of [signal] on, no delivery of SIGINT, SIGTERM or
    SIGPIPE ends the process or touches [main]'s position, options,
    configuration or handler: all it can do is add calls of the shutdown
    closure to the trace. *)
Theorem signals_only_run_closure (e : env) (st : state) (sig : signal) (b : bool) :
  reachable e st -> past L111 (pc st) = true ->
  proc (deliver sig b st) = proc st
  /\ pc (deliver sig b st) = pc st
  /\ opts (deliver sig b st) = opts st
  /\ config (deliver sig b st) = config st
  /\ hup_handler (deliver sig b st) = hup_handler st
  /\ exists evs, trace (deliver sig b st) = trace st ++ evs
                 /\ forallb is_shutdown evs = true.
Proof.
  intros Hr H111.
  pose proof (reachable_invariant e st Hr) as ((_ & Hp & Hi & Ht & _) & _).
  assert (Hdfl : sigtable st sig <> SIG_DFL).
  { destruct (pc st); try discriminate H111; crunch; destruct sig; congruence. }
  destruct (deliver_cases sig b st) as [[H _] | [[_ ->] | (_ & _ & ->)]];
    [contradiction | | ].
  - repeat split. exists []. rewrite app_nil_r. auto.
  - destruct st; simpl. repeat split. eexists. split; [reflexivity|].
    destruct b; reflexivity.
Qed.

Lemma signals_only_run_closure_witness :
  proc (deliver SIGTERM false (exec sample_env (repeat MainStep 20) (init sample_env)))
  = proc (exec sample_env (repeat MainStep 20) (init sample_env)).
Proof.
  assert (Hr : reachable sample_env
                 (exec sample_env (repeat MainStep 20) (init sample_env)))
    by (exists (repeat MainStep 20); reflexivity).
  exact (proj1 (signals_only_run_closure sample_env _ SIGTERM false Hr eq_refl)).
Defined.
